(** * Device-health correlation engine: shallow embedding and properties

    The development embeds the TypeScript services of the monitoring
    dashboard:
    - [lib/api.ts]          (class [APIService]: TTL cache over the registry API),
    - [lib/correlation.ts]  (class [CorrelationService]: event-driven correlator),
    - [lib/analytics.ts]    ([getSeverityFromExceptionType]),
    - [lib/firebase.ts]     ([subscribeToExceptionLogs], snapshot handler),
    - [components/DeviceOverviewTab.tsx] ([calculateHealthScore]).

    Conventions.
    - JavaScript strings are [string]s of 8-bit characters; [toLowerCase]
      is the ASCII mapping of 'A'..'Z' to 'a'..'z'.
    - JavaScript numbers that hold counts, scores and epoch milliseconds
      are [Z].
    - An absent, [undefined] or empty string field is the empty string:
      every use in the embedded code goes through [x || default] or [!x],
      which do not tell them apart.
    - Asynchronous methods are computations in a state-and-exception monad
      over an explicit [World]; one handler runs to completion at one
      reading of the clock. *)

From Stdlib Require Import ZArith Lia Ascii String.
From stdpp Require Import base option list strings pretty gmap.

Local Open Scope string_scope.
Local Open Scope list_scope.
Local Open Scope Z_scope.

(** ** JavaScript string primitives *)

Module JsString.

(** ['A'..'Z'] are mapped to ['a'..'z']; every other character is kept. *)
Definition lower_ascii (c : ascii) : ascii :=
  let n := Ascii.nat_of_ascii c in
  if (Nat.leb 65 n && Nat.leb n 90)%bool then Ascii.ascii_of_nat (n + 32) else c.

(** [s.toLowerCase()] *)
Fixpoint toLowerCase (s : string) : string :=
  match s with
  | EmptyString => EmptyString
  | String c r => String (lower_ascii c) (toLowerCase r)
  end.

(** [s.includes(needle)]: [needle] occurs in [s] as a contiguous run. *)
Fixpoint includes (s needle : string) : bool :=
  String.prefix needle s ||
  match s with
  | EmptyString => false
  | String _ r => includes r needle
  end.

(** Truthiness of a string value: only the empty string is falsy. *)
Definition truthy (s : string) : bool :=
  match s with EmptyString => false | String _ _ => true end.

(** [s || d] on strings. *)
Definition or_else (s d : string) : string := if truthy s then s else d.

End JsString.

Import JsString.

(** ** Event records ([lib/firebase.ts]) *)

Record ExceptionLog := {
  id : string;
  createdAt : Z;          (* Firestore Timestamp, as epoch milliseconds *)
  details : string;
  deviceImei : string;
  main : string
}.

Record IgnitionLog := {
  ign_id : string;
  ign_createdAt : Z
}.

(** ** Severity classification *)

(** [AnalyticsService.getSeverityFromExceptionType] ([lib/analytics.ts]).
    The argument is [string | null]; [None] is [null]. *)
Definition getSeverityFromExceptionType (exceptionType : option string) : string :=
  match exceptionType with
  | None => "unknown"
  | Some e =>
      if negb (truthy e) then "unknown"
      else
        let type := toLowerCase e in
        if includes type "critical" || includes type "server down" || includes type "offline"
        then "critical"
        else if includes type "warning" || includes type "degraded" || includes type "retry"
        then "warning"
        else "info"
  end.

(** [CorrelationService.isCriticalException] ([lib/correlation.ts]). *)
Definition isCriticalException (exceptionLog : ExceptionLog) : bool :=
  let main := toLowerCase (or_else (main exceptionLog) "") in
  includes main "server" ||
  includes main "critical" ||
  includes main "down" ||
  includes main "offline".

(** The classification table as the specification words it:
    [critical|server down|offline] gives critical, otherwise
    [warning|retry|degraded] gives warning, anything else info;
    matching is by substring on the lower-cased text. *)
Definition spec_classify (text : string) : string :=
  let t := toLowerCase text in
  if includes t "critical" || includes t "server down" || includes t "offline"
  then "critical"
  else if includes t "warning" || includes t "retry" || includes t "degraded"
  then "warning"
  else "info".

(** ** Health scoring *)

Module OverviewTab.

(** The filters of [calculateHealthScore] in
    [components/DeviceOverviewTab.tsx].  [createdAt] stands for
    [firebaseService.parseTimestamp(log.createdAt)]. *)
Definition is_critical_log (log : ExceptionLog) : bool :=
  let mainText := toLowerCase (or_else (main log) "") in
  bool_decide (mainText = "server down") || includes mainText "critical".

Definition is_warning_log (log : ExceptionLog) : bool :=
  let mainText := toLowerCase (or_else (main log) "") in
  includes mainText "retry" || includes mainText "warning".

(** [logTime > oneHourAgo] with [oneHourAgo = now - 60*60*1000]. *)
Definition is_recent_log (now : Z) (log : ExceptionLog) : bool :=
  bool_decide (now - 60 * 60 * 1000 < createdAt log).

(** The ignition bonus test: the first (latest) ignition log is less
    than 24 hours old.  The source divides the millisecond difference by
    [1000*60*60] and compares with 24; on integer milliseconds that is
    the comparison below. *)
Definition has_recent_ignition (now : Z) (ignitionLogs : list IgnitionLog) : bool :=
  match ignitionLogs with
  | [] => false
  | first :: _ => bool_decide (now - ign_createdAt first < 24 * (1000 * 60 * 60))
  end.

Definition criticalCount (exceptionLogs : list ExceptionLog) : Z :=
  Z.of_nat (length (filter (fun l => is_critical_log l = true) exceptionLogs)).

Definition warningCount (exceptionLogs : list ExceptionLog) : Z :=
  Z.of_nat (length (filter (fun l => is_warning_log l = true) exceptionLogs)).

Definition recentCount (now : Z) (exceptionLogs : list ExceptionLog) : Z :=
  Z.of_nat (length (filter (fun l => is_recent_log now l = true) exceptionLogs)).

(** [calculateHealthScore(exceptionLogs, ignitionLogs)]: the source
    updates a local [score] statement by statement; [now] is
    [Date.now()]. *)
Definition calculateHealthScore (now : Z)
    (exceptionLogs : list ExceptionLog) (ignitionLogs : list IgnitionLog) : Z :=
  let score := 100 in
  let criticalExceptions := criticalCount exceptionLogs in
  let score := score - criticalExceptions * 20 in
  let warnings := warningCount exceptionLogs in
  let score := score - warnings * 5 in
  let recentExceptions := recentCount now exceptionLogs in
  let score := score - recentExceptions * 10 in
  let score := if has_recent_ignition now ignitionLogs then score + 5 else score in
  Z.max 0 (Z.min 100 score).

End OverviewTab.

(** The primary scorer as the specification words it. *)
Definition spec_score (criticalCount warningCount recentCount : Z)
    (hasRecentIgnition : bool) : Z :=
  let raw := 100 - 20 * criticalCount - 5 * warningCount - 10 * recentCount
             + (if hasRecentIgnition then 5 else 0) in
  if raw <? 0 then 0 else if 100 <? raw then 100 else raw.

(** The number of logs a test counts. *)
Fixpoint count_logs (counted : ExceptionLog -> bool) (logs : list ExceptionLog) : Z :=
  match logs with
  | [] => 0
  | log :: rest => (if counted log then 1 else 0) + count_logs counted rest
  end.

(** The four inputs of the primary scorer as the specification words
    them: the exceptions the classification table calls critical, those it
    calls warning, those that occurred within the last rolling hour, and
    whether an ignition event occurred within the last 24 hours. *)
Definition spec_criticalCount (logs : list ExceptionLog) : Z :=
  count_logs (fun log => String.eqb (spec_classify (main log)) "critical") logs.

Definition spec_warningCount (logs : list ExceptionLog) : Z :=
  count_logs (fun log => String.eqb (spec_classify (main log)) "warning") logs.

Definition spec_recentCount (now : Z) (logs : list ExceptionLog) : Z :=
  count_logs (fun log => now - createdAt log <? 60 * 60 * 1000) logs.

Definition spec_hasRecentIgnition (now : Z) (ignitionLogs : list IgnitionLog) : bool :=
  existsb (fun log => now - ign_createdAt log <? 24 * 60 * 60 * 1000) ignitionLogs.

(** The primary scorer as the specification words it, on a device's logs. *)
Definition spec_overview_score (now : Z)
    (exceptionLogs : list ExceptionLog) (ignitionLogs : list IgnitionLog) : Z :=
  spec_score (spec_criticalCount exceptionLogs) (spec_warningCount exceptionLogs)
             (spec_recentCount now exceptionLogs)
             (spec_hasRecentIgnition now ignitionLogs).

(** What the overview scorer counts instead, said of the category alone:
    a log counts as critical when its lower-cased category is exactly
    ["server down"] or has ["critical"] in it, and as a warning when it has
    ["retry"] or ["warning"] in it, counted as critical or not. *)
Definition scored_critical (log : ExceptionLog) : bool :=
  let category := toLowerCase (main log) in
  String.eqb category "server down" || includes category "critical".

Definition scored_warning (log : ExceptionLog) : bool :=
  let category := toLowerCase (main log) in
  includes category "retry" || includes category "warning".

(** The age test for the ignition bonus, on the first log of the list. *)
Definition first_ignition_recent (now : Z) (ignitionLogs : list IgnitionLog) : bool :=
  match ignitionLogs with
  | [] => false
  | first :: _ => now - ign_createdAt first <? 24 * 60 * 60 * 1000
  end.

(** Ignition logs as the subscription delivers them ([orderBy('createdAt',
    'desc')]): no log is later than the first. *)
Definition latest_first (ignitionLogs : list IgnitionLog) : Prop :=
  match ignitionLogs with
  | [] => True
  | first :: rest => Forall (fun log => ign_createdAt log <= ign_createdAt first) rest
  end.

(** A log on which the scorer's tests and the table say the same. *)
Definition table_agrees (log : ExceptionLog) : Prop :=
  scored_critical log = String.eqb (spec_classify (main log)) "critical"
  /\ scored_warning log = String.eqb (spec_classify (main log)) "warning".

(** [CorrelationService.calculateHealthScore(isActive, locationCount)]
    ([lib/correlation.ts]), the API-activity variant. *)
Definition calculateHealthScore (isActive : bool) (locationCount : Z) : Z :=
  let score := 100 in
  let score := if negb isActive then score - 50 else score in
  let score :=
    if locationCount =? 0 then score - 30
    else if locationCount <? 3 then score - 15
    else score in
  Z.max 0 score.

(** ** The registry API service ([lib/api.ts]) *)

(** [Device] / [DeviceDetails]: the fields the services read. *)
Record Device := {
  dev_imei : string;
  dev_name : string;
  dev_status : string
}.

(** A date string of the registry ([timestamp: string], [lastActivity:
    string | null]), by what the code can make of it: [NoDate] is an
    absent, [null] or empty string (falsy); [DateAt t] a string that
    [new Date(..)] reads as the instant [t], in epoch milliseconds;
    [InvalidDate] a non-empty string that [new Date(..)] reads as an
    Invalid Date, whose [getTime()] is [NaN]. *)
Inductive DateString :=
| NoDate
| DateAt (t : Z)
| InvalidDate.

Record LocationData := {
  loc_imei : string;
  loc_timestamp : DateString
}.

Record ActivityStatus := {
  isActive : bool;
  lastActivity : DateString;
  locationCount : Z
}.

(** What a cache slot holds ([data: any]). *)
Inductive Payload :=
| PDevices (devices : list Device)
| PDevice (device : option Device)          (* [DeviceDetails | null] *)
| PLocations (locations : list LocationData).

Record CacheEntry := {
  data : Payload;
  timestamp : Z
}.

(** Requests sent to the registry by [makeRequest]. *)
Inductive Request :=
| GetDevices                                  (* GET /devices *)
| GetDevice (imei : string)                   (* GET /devices/{imei} *)
| GetLocations (imei : string) (limit : Z).   (* GET /devices/{imei}/locations?limit= *)

(** Public [apiService] methods, recorded when they are entered. *)
Inductive ApiMethod :=
| MGetAllDevices
| MGetDeviceByImei (imei : string)
| MGetDeviceLocations (imei : string) (limit : Z)
| MGetDeviceActivityStatus (imei : string).

(** ** Correlation records ([lib/correlation.ts]) *)

(** [api_response: any], by the shapes the correlator builds. *)
Inductive ApiResponse :=
| RNull
| RDeviceActivity (device : option Device) (activity : ActivityStatus)
| RError (message : string)
| RCachedStatus (cached_status : string).

(** The argument of [logCorrelation]: a [CorrelationLog] without [id]
    and [created_at]. *)
Record CorrelationData := {
  imei : string;
  correlation_type : string;
  firebase_exception_id : string;
  api_response : ApiResponse;
  api_status : string;
  correlation_result : string;
  notes : string
}.

Record CorrelationLog := {
  entry : CorrelationData;
  created_at : Z
}.

(** A [device_inventory] row.  [None] is a column this code has not
    written (null or the table default). *)
Record InventoryRow := {
  row_name : option string;
  row_status : option string;
  last_seen_api : option Z;
  last_seen_firebase : option Z;
  is_active_api : option bool;
  is_active_firebase : option bool;
  location_count : option Z;
  last_exception_type : option string;
  health_score : option Z;
  updated_at : option Z
}.

Definition empty_row : InventoryRow :=
  {| row_name := None; row_status := None; last_seen_api := None;
     last_seen_firebase := None; is_active_api := None;
     is_active_firebase := None; location_count := None;
     last_exception_type := None; health_score := None; updated_at := None |}.

(** The two partial records the correlator upserts (conflict key [imei]). *)
Inductive UpsertData :=
| ApiFields (u_imei : string) (u_name : option string) (u_status : string)
            (u_last_seen_api : option Z) (u_is_active_api : bool)
            (u_location_count : Z) (u_health_score : Z) (u_updated_at : Z)
| FirebaseFields (u_imei : string) (u_last_seen_firebase : Z)
                 (u_is_active_firebase : bool) (u_last_exception_type : string)
                 (u_updated_at : Z).

Definition upsert_key (u : UpsertData) : string :=
  match u with
  | ApiFields i _ _ _ _ _ _ _ => i
  | FirebaseFields i _ _ _ _ => i
  end.

(** Upsert semantics: the supplied columns overwrite, the others keep the
    stored value (or stay unset on insert). *)
Definition merge_row (u : UpsertData) (old : InventoryRow) : InventoryRow :=
  match u with
  | ApiFields _ n s seen act cnt score upd =>
      {| row_name := n; row_status := Some s; last_seen_api := seen;
         last_seen_firebase := last_seen_firebase old;
         is_active_api := Some act;
         is_active_firebase := is_active_firebase old;
         location_count := Some cnt;
         last_exception_type := last_exception_type old;
         health_score := Some score; updated_at := Some upd |}
  | FirebaseFields _ seen act typ upd =>
      {| row_name := row_name old; row_status := row_status old;
         last_seen_api := last_seen_api old;
         last_seen_firebase := Some seen;
         is_active_api := is_active_api old;
         is_active_firebase := Some act;
         location_count := location_count old;
         last_exception_type := Some typ;
         health_score := health_score old; updated_at := Some upd |}
  end.

Definition apply_upsert (u : UpsertData)
    (table : gmap string InventoryRow) : gmap string InventoryRow :=
  <[upsert_key u := merge_row u (default empty_row (table !! upsert_key u))]> table.

(** ** Observable effects and the world *)

Inductive Effect :=
| ApiInvoke (m : ApiMethod)          (* an [apiService] method was entered *)
| HttpRequest (r : Request)          (* [fetch] was called *)
| DbSelectImeis                      (* select imei from device_inventory *)
| DbUpsert (u : UpsertData)          (* upsert into device_inventory *)
| DbInsertLog (l : CorrelationLog).  (* insert into api_correlation_logs *)

Record World := {
  clock : Z;                                     (* [Date.now()] *)
  cache : gmap string CacheEntry;                (* [APIService.cache] *)
  knownIMEIs : gset string;                      (* [CorrelationService.knownIMEIs] *)
  lastIMEIRefresh : Z;
  device_inventory : gmap string InventoryRow;   (* record store *)
  api_correlation_logs : list CorrelationLog;    (* record store, oldest first *)
  trace : list Effect                            (* oldest first *)
}.

Definition with_cache (c : gmap string CacheEntry) (w : World) : World :=
  {| clock := clock w; cache := c; knownIMEIs := knownIMEIs w;
     lastIMEIRefresh := lastIMEIRefresh w;
     device_inventory := device_inventory w;
     api_correlation_logs := api_correlation_logs w; trace := trace w |}.

Definition with_known (k : gset string) (refreshed : Z) (w : World) : World :=
  {| clock := clock w; cache := cache w; knownIMEIs := k;
     lastIMEIRefresh := refreshed;
     device_inventory := device_inventory w;
     api_correlation_logs := api_correlation_logs w; trace := trace w |}.

Definition with_inventory (t : gmap string InventoryRow) (w : World) : World :=
  {| clock := clock w; cache := cache w; knownIMEIs := knownIMEIs w;
     lastIMEIRefresh := lastIMEIRefresh w;
     device_inventory := t;
     api_correlation_logs := api_correlation_logs w; trace := trace w |}.

Definition with_logs (l : list CorrelationLog) (w : World) : World :=
  {| clock := clock w; cache := cache w; knownIMEIs := knownIMEIs w;
     lastIMEIRefresh := lastIMEIRefresh w;
     device_inventory := device_inventory w;
     api_correlation_logs := l; trace := trace w |}.

Definition with_trace (t : list Effect) (w : World) : World :=
  {| clock := clock w; cache := cache w; knownIMEIs := knownIMEIs w;
     lastIMEIRefresh := lastIMEIRefresh w;
     device_inventory := device_inventory w;
     api_correlation_logs := api_correlation_logs w; trace := t |}.

Definition with_clock (t : Z) (w : World) : World :=
  {| clock := t; cache := cache w; knownIMEIs := knownIMEIs w;
     lastIMEIRefresh := lastIMEIRefresh w;
     device_inventory := device_inventory w;
     api_correlation_logs := api_correlation_logs w; trace := trace w |}.

(** What the outside does when asked: the registry's answer to each
    request (a body, or the [Error] that [makeRequest] throws), and whether
    the record store accepts each kind of statement. *)
Inductive Fetched (A : Type) :=
| Body (a : A)
| Fails (message : string).
Arguments Body {A} a.
Arguments Fails {A} message.

Record Env := {
  fetch_devices : Fetched (bool * list Device);      (* [{ success, data }] *)
  fetch_device : string -> Fetched (option Device);
  fetch_locations : string -> Z -> Fetched (list LocationData);
  select_ok : bool;
  upsert_ok : bool;
  insert_ok : bool
}.

(** ** Asynchronous computations: state and exceptions *)

Inductive Outcome (A : Type) :=
| Returned (a : A)
| Thrown (message : string).
Arguments Returned {A} a.
Arguments Thrown {A} message.

Definition Async (A : Type) : Type := World -> Outcome A * World.

Definition ret {A} (a : A) : Async A := fun w => (Returned a, w).

Definition throw {A} (message : string) : Async A := fun w => (Thrown message, w).

Definition bind {A B} (m : Async A) (k : A -> Async B) : Async B :=
  fun w =>
    match m w with
    | (Returned a, w') => k a w'
    | (Thrown e, w') => (Thrown e, w')
    end.

(** [try { m } catch (error) { h error.message }]; state changes made
    before the throw stay. *)
Definition try_catch {A} (m : Async A) (h : string -> Async A) : Async A :=
  fun w =>
    match m w with
    | (Returned a, w') => (Returned a, w')
    | (Thrown e, w') => h e w'
    end.

Definition gets {A} (f : World -> A) : Async A := fun w => (Returned (f w), w).

Definition modify (f : World -> World) : Async unit := fun w => (Returned tt, f w).

Definition emit (e : Effect) : Async unit :=
  modify (fun w => with_trace (trace w ++ [e]) w).

Notation "'let*' x ':=' m 'in' k" := (bind m (fun x => k))
  (at level 10, x name, m at level 100, k at level 200).
Notation "'let*' ' p ':=' m 'in' k" := (bind m (fun x => match x with p => k end))
  (at level 10, p pattern, m at level 100, k at level 200).
Notation "m ';;' k" := (bind m (fun _ => k))
  (at level 100, k at level 200, right associativity).

Section Services.

Variable env : Env.

(** *** [class APIService] *)

Definition CACHE_DURATION : Z := 5 * 60 * 1000.

Definition isCacheValid (key : string) : Async bool :=
  gets (fun w =>
    match cache w !! key with
    | None => false
    | Some cached => bool_decide (clock w - timestamp cached < CACHE_DURATION)
    end).

Definition setCache (key : string) (d : Payload) : Async unit :=
  modify (fun w =>
    with_cache (<[key := {| data := d; timestamp := clock w |}]> (cache w)) w).

(** [getCache(key)] is [cached?.data]: [None] is [undefined]. *)
Definition getCache (key : string) : Async (option Payload) :=
  gets (fun w => data <$> (cache w !! key)).

(** [makeRequest]: one [fetch]; a failure is rethrown to the caller. *)
Definition makeRequest {A} (r : Request) (answer : Fetched A) : Async A :=
  emit (HttpRequest r);;
  match answer with
  | Body a => ret a
  | Fails message => throw message
  end.

(** Reading a slot at the type its method declares.  The three key
    families ["all-devices"], ["device-..."], ["locations-..."] are
    disjoint, so a slot always holds the payload its reader expects;
    the other cases give the empty value. *)
Definition as_devices (p : option Payload) : list Device :=
  match p with Some (PDevices l) => l | _ => [] end.

Definition as_device (p : option Payload) : option Device :=
  match p with Some (PDevice d) => d | _ => None end.

Definition as_locations (p : option Payload) : list LocationData :=
  match p with Some (PLocations l) => l | _ => [] end.

Definition getAllDevices : Async (list Device) :=
  emit (ApiInvoke MGetAllDevices);;
  let cacheKey := "all-devices" in
  let* valid := isCacheValid cacheKey in
  if valid then
    let* cached := getCache cacheKey in ret (as_devices cached)
  else
    try_catch
      (let* response := makeRequest GetDevices (fetch_devices env) in
       let devices := if fst response then snd response else [] in
       setCache cacheKey (PDevices devices);;
       ret devices)
      (fun error =>
         (* Return cached data if available, even if expired *)
         let* cached := getCache cacheKey in
         ret (as_devices cached)).

Definition getDeviceByImei (imei : string) : Async (option Device) :=
  emit (ApiInvoke (MGetDeviceByImei imei));;
  let cacheKey := "device-" +:+ imei in
  let* valid := isCacheValid cacheKey in
  if valid then
    let* cached := getCache cacheKey in ret (as_device cached)
  else
    try_catch
      (let* device := makeRequest (GetDevice imei) (fetch_device env imei) in
       setCache cacheKey (PDevice device);;
       ret device)
      (fun error => ret None).

Definition getDeviceLocations (imei : string) (limit : Z) : Async (list LocationData) :=
  emit (ApiInvoke (MGetDeviceLocations imei limit));;
  let cacheKey := "locations-" +:+ imei +:+ "-" +:+ pretty limit in
  let* valid := isCacheValid cacheKey in
  if valid then
    let* cached := getCache cacheKey in ret (as_locations cached)
  else
    try_catch
      (let* locations :=
         makeRequest (GetLocations imei limit) (fetch_locations env imei limit) in
       setCache cacheKey (PLocations locations);;
       ret locations)
      (fun error => ret []).

(** [isDeviceActive(locations, thresholdMinutes = 30)]; [now] is
    [new Date()].  The source compares the difference in minutes with
    the threshold; on integer milliseconds that is the test below, and
    for an Invalid Date the difference is [NaN], which is not [<=] the
    threshold. *)
Definition isDeviceActive (now : Z) (locations : list LocationData) : bool :=
  match locations with
  | [] => false
  | latestLocation :: _ =>
      match loc_timestamp latestLocation with
      | NoDate => false
      | DateAt locationTime => bool_decide (now - locationTime <= 30 * (1000 * 60))
      | InvalidDate => false
      end
  end.

Definition getDeviceActivityStatus (imei : string) : Async ActivityStatus :=
  emit (ApiInvoke (MGetDeviceActivityStatus imei));;
  try_catch
    (let* locations := getDeviceLocations imei 5 in
     let* now := gets clock in
     let isActive := isDeviceActive now locations in
     let lastActivity :=
       match locations with
       | [] => NoDate
       | first :: _ => loc_timestamp first
       end in
     ret {| isActive := isActive;
            lastActivity := lastActivity;
            locationCount := Z.of_nat (length locations) |})
    (fun error =>
       ret {| isActive := false; lastActivity := NoDate; locationCount := 0 |}).

(** [clearCache()] *)
Definition clearCache : Async unit :=
  modify (with_cache ∅).

(** *** [class CorrelationService] *)

Definition IMEI_REFRESH_INTERVAL : Z := 60 * 60 * 1000.

(** [refreshKnownIMEIs]: at most once per interval, the set is replaced
    by the imeis of the inventory table; a failed select leaves it. *)
Definition refreshKnownIMEIs : Async unit :=
  let* now := gets clock in
  let* last := gets lastIMEIRefresh in
  if bool_decide (now - last < IMEI_REFRESH_INTERVAL) then ret tt
  else
    emit DbSelectImeis;;
    if negb (select_ok env) then ret tt
    else modify (fun w => with_known (dom (device_inventory w)) now w).

Definition isIMEIKnown (imei : string) : Async bool :=
  refreshKnownIMEIs;;
  gets (fun w => bool_decide (imei ∈ knownIMEIs w)).

(** [supabase.from('device_inventory').upsert(..)]; both a returned
    [error] and a thrown one are only printed by the callers. *)
Definition upsertInventory (u : UpsertData) : Async unit :=
  emit (DbUpsert u);;
  if upsert_ok env
  then modify (fun w => with_inventory (apply_upsert u (device_inventory w)) w)
  else ret tt.

(** [lastActivity ? new Date(lastActivity).toISOString() : null]:
    [toISOString] throws a [RangeError] on an Invalid Date. *)
Definition toISOString_or_null (lastActivity : DateString) : Async (option Z) :=
  match lastActivity with
  | NoDate => ret None
  | DateAt t => ret (Some t)
  | InvalidDate => throw "Invalid time value"
  end.

(** [updateDeviceInventory(device)]: whatever is thrown inside, the
    [RangeError] of [toISOString] included, is caught and printed, and
    then no upsert is sent. *)
Definition updateDeviceInventory (device : Device) : Async unit :=
  try_catch
    (let* activityStatus := getDeviceActivityStatus (dev_imei device) in
     let healthScore :=
       calculateHealthScore (isActive activityStatus) (locationCount activityStatus) in
     let* last_seen_api := toISOString_or_null (lastActivity activityStatus) in
     let* now := gets clock in
     upsertInventory
       (ApiFields (dev_imei device)
          (if truthy (dev_name device) then Some (dev_name device) else None)
          (or_else (dev_status device) "unknown")
          last_seen_api
          (isActive activityStatus)
          (locationCount activityStatus)
          healthScore
          now))
    (fun error => ret tt).

Definition updateDeviceWithFirebaseData (imei : string) (exceptionLog : ExceptionLog)
    : Async unit :=
  try_catch
    (let* now := gets clock in
     upsertInventory
       (FirebaseFields imei now false (or_else (main exceptionLog) "Unknown") now))
    (fun error => ret tt).

Definition logCorrelation (correlationData : CorrelationData) : Async unit :=
  try_catch
    (let* now := gets clock in
     let row := {| entry := correlationData; created_at := now |} in
     emit (DbInsertLog row);;
     if insert_ok env
     then modify (fun w => with_logs (api_correlation_logs w ++ [row]) w)
     else ret tt)
    (fun error => ret tt).

Definition determineCorrelationResult (exceptionLog : ExceptionLog)
    (deviceDetails : option Device) (activityStatus : ActivityStatus) : string :=
  match deviceDetails with
  | None => "no_data"
  | Some _ =>
      let exceptionType := toLowerCase (or_else (main exceptionLog) "") in
      if includes exceptionType "server" && includes exceptionType "down"
      then (if isActive activityStatus then "conflicted" else "confirmed")
      else if includes exceptionType "device" || includes exceptionType "connection"
      then (if negb (isActive activityStatus) then "confirmed" else "conflicted")
      else "confirmed"
  end.

(** [Math.round(ms / (1000 * 60))] for an integer [ms]; for the [NaN]
    of an Invalid Date it is [NaN], printed as such. *)
Definition round_minutes (ms : Z) : Z := (ms + 30000) `div` 60000.

Definition generateCorrelationNotes (now : Z) (exceptionLog : ExceptionLog)
    (deviceDetails : option Device) (activityStatus : ActivityStatus) : string :=
  let notes := ["Firebase Exception: " +:+ or_else (main exceptionLog) "Unknown"] in
  let notes :=
    match deviceDetails with
    | Some d =>
        let notes := (notes ++
          ["API Device Status: " +:+ or_else (dev_status d) "Unknown";
           "API Activity: " +:+ (if isActive activityStatus then "Active" else "Inactive");
           "Recent Locations: " +:+ pretty (locationCount activityStatus)])%list in
        match lastActivity activityStatus with
        | NoDate => notes
        | DateAt lastActivity =>
            (notes ++ ["Last Activity: " +:+ pretty (round_minutes (now - lastActivity))
                       +:+ " minutes ago"])%list
        | InvalidDate => (notes ++ ["Last Activity: NaN minutes ago"])%list
        end
    | None => (notes ++ ["API: Device not found or API unavailable"])%list
    end in
  String.concat " | " notes.

(** [apiResponse?.error ? 'error' : (apiResponse ? 'success' : 'no_data')] *)
Definition status_of_response (apiResponse : ApiResponse) : string :=
  let error_truthy :=
    match apiResponse with
    | RError message => truthy message
    | _ => false
    end in
  if error_truthy then "error"
  else match apiResponse with
       | RNull => "no_data"
       | _ => "success"
       end.

(** The [try] block of [correlateExceptionEventDriven]. *)
Definition correlate_body (exceptionLog : ExceptionLog) : Async unit :=
  let* isKnown := isIMEIKnown (deviceImei exceptionLog) in
  let* '(correlationResult, apiResponse, notes) :=
    if negb isKnown then
      (* NEW IMEI DISCOVERED - Always fetch API data for new devices *)
      try_catch
        (let* deviceDetails := getDeviceByImei (deviceImei exceptionLog) in
         let* activityStatus := getDeviceActivityStatus (deviceImei exceptionLog) in
         let apiResponse := RDeviceActivity deviceDetails activityStatus in
         match deviceDetails with
         | Some device =>
             updateDeviceInventory device;;
             modify (fun w =>
               with_known ({[deviceImei exceptionLog]} ∪ knownIMEIs w)
                          (lastIMEIRefresh w) w);;
             ret ("confirmed", apiResponse,
                  "New IMEI discovered - device found in API and added to inventory")
         | None =>
             ret ("no_data", apiResponse,
                  "New IMEI discovered - device not found in API")
         end)
        (fun error =>
           ret ("no_data", RError error,
                "New IMEI discovered - API call failed: " +:+ error))
    else
      (* KNOWN IMEI - Only make API call for critical exceptions *)
      if isCriticalException exceptionLog then
        try_catch
          (let* deviceDetails := getDeviceByImei (deviceImei exceptionLog) in
           let* activityStatus := getDeviceActivityStatus (deviceImei exceptionLog) in
           let* now := gets clock in
           ret (determineCorrelationResult exceptionLog deviceDetails activityStatus,
                RDeviceActivity deviceDetails activityStatus,
                generateCorrelationNotes now exceptionLog deviceDetails activityStatus))
          (fun error =>
             ret ("no_data", RError error,
                  "Critical exception for known IMEI - API call failed: " +:+ error))
      else
        ret ("confirmed", RCachedStatus "known_imei_non_critical",
             "Non-critical exception for known IMEI - no API call made (event-driven optimization)")
  in
  logCorrelation
    {| imei := deviceImei exceptionLog;
       correlation_type := "exception_triggered";
       firebase_exception_id := id exceptionLog;
       api_response := apiResponse;
       api_status := status_of_response apiResponse;
       correlation_result := correlationResult;
       notes := notes |};;
  (* Always update device inventory with Firebase data *)
  updateDeviceWithFirebaseData (deviceImei exceptionLog) exceptionLog.

Definition correlateExceptionEventDriven (exceptionLog : ExceptionLog) : Async unit :=
  if negb (truthy (deviceImei exceptionLog)) then ret tt
  else
    try_catch
      (correlate_body exceptionLog)
      (fun error =>
         logCorrelation
           {| imei := deviceImei exceptionLog;
              correlation_type := "exception_triggered";
              firebase_exception_id := id exceptionLog;
              api_response := RError error;
              api_status := "error";
              correlation_result := "no_data";
              notes := "Event-driven correlation failed: " +:+ error |}).

(** *** Snapshot handler of [subscribeToExceptionLogs] ([lib/firebase.ts]) *)

(** A document of a snapshot with the two metadata flags the handler
    reads. *)
Record SnapshotDoc := {
  doc : ExceptionLog;
  hasPendingWrites : bool;
  fromCache : bool
}.

Definition newLogs (snapshot : list SnapshotDoc) : list ExceptionLog :=
  doc <$> filter (fun d => negb (hasPendingWrites d) && negb (fromCache d) = true) snapshot.

Fixpoint correlate_each (logs : list ExceptionLog) : Async unit :=
  match logs with
  | [] => ret tt
  | log :: rest =>
      try_catch (correlateExceptionEventDriven log) (fun error => ret tt);;
      correlate_each rest
  end.

(** The [onSnapshot] listener.  The source starts one correlation per
    new log without awaiting it; here they run one after the other in
    snapshot order.  The result is the list handed to [callback]. *)
Definition onSnapshot (snapshot : list SnapshotDoc) : Async (list ExceptionLog) :=
  correlate_each (newLogs snapshot);;
  ret (doc <$> snapshot).

End Services.

(** ** Reading a trace *)

Definition api_calls (t : list Effect) : list ApiMethod :=
  omap (fun e => match e with ApiInvoke m => Some m | _ => None end) t.

Definition http_requests (t : list Effect) : list Request :=
  omap (fun e => match e with HttpRequest r => Some r | _ => None end) t.

Definition log_writes (t : list Effect) : list CorrelationLog :=
  omap (fun e => match e with DbInsertLog l => Some l | _ => None end) t.

Definition upserts (t : list Effect) : list UpsertData :=
  omap (fun e => match e with DbUpsert u => Some u | _ => None end) t.

(** The device-detail lookups ([apiService.getDeviceByImei]) among the
    [apiService] calls of a trace. *)
Definition detail_lookups (t : list Effect) : list string :=
  omap (fun m => match m with MGetDeviceByImei i => Some i | _ => None end)
       (api_calls t).

(** The value a computation returns from a world ([dflt] if it throws). *)
Definition answer {A} (dflt : A) (r : Outcome A * World) : A :=
  match fst r with
  | Returned a => a
  | Thrown _ => dflt
  end.

(** What the registry cache leaves alone: the clock, the correlator's
    known set, the record store and the statements sent to it. *)
Definition store_frame (w w' : World) : Prop :=
  clock w' = clock w /\
  knownIMEIs w' = knownIMEIs w /\
  lastIMEIRefresh w' = lastIMEIRefresh w /\
  device_inventory w' = device_inventory w /\
  api_correlation_logs w' = api_correlation_logs w /\
  log_writes (trace w') = log_writes (trace w) /\
  upserts (trace w') = upserts (trace w).

(** A step of the API service: the store is left alone and the trace
    gains the given [apiService] calls. *)
Definition api_step (calls : list ApiMethod) (w w' : World) : Prop :=
  store_frame w w' /\ api_calls (trace w') = api_calls (trace w) ++ calls.

(** What the refresh of the known set leaves alone: everything but the
    set, its refresh time and the select it may send. *)
Definition refresh_frame (w w' : World) : Prop :=
  clock w' = clock w /\
  cache w' = cache w /\
  device_inventory w' = device_inventory w /\
  api_correlation_logs w' = api_correlation_logs w /\
  api_calls (trace w') = api_calls (trace w) /\
  http_requests (trace w') = http_requests (trace w) /\
  log_writes (trace w') = log_writes (trace w) /\
  upserts (trace w') = upserts (trace w).

(** The health score an upsert carries, if any, is within [0, 100]. *)
Definition score_ok (u : UpsertData) : bool :=
  match u with
  | ApiFields _ _ _ _ _ _ score _ => (0 <=? score) && (score <=? 100)
  | FirebaseFields _ _ _ _ _ => true
  end.

(** ** Reading the correlation log *)

Definition results (t : list Effect) : list string :=
  (fun l => correlation_result (entry l)) <$> log_writes t.

Definition statuses (t : list Effect) : list string :=
  (fun l => api_status (entry l)) <$> log_writes t.

Definition summary (l : CorrelationLog) : string * string * string :=
  (api_status (entry l), correlation_result (entry l), notes (entry l)).

(** The value [getDeviceActivityStatus] falls back to. *)
Definition idle_activity : ActivityStatus :=
  {| isActive := false; lastActivity := NoDate; locationCount := 0 |}.

(** ** The three entries [correlateExceptionEventDriven] can log *)

(** Unknown device: the registry was asked and answered [d], [a]. *)
Definition discovery_entry (ev : ExceptionLog) (d : option Device) (a : ActivityStatus)
    : CorrelationData :=
  {| imei := deviceImei ev;
     correlation_type := "exception_triggered";
     firebase_exception_id := id ev;
     api_response := RDeviceActivity d a;
     api_status := "success";
     correlation_result := if is_Some_dec d then "confirmed" else "no_data";
     notes := if is_Some_dec d
              then "New IMEI discovered - device found in API and added to inventory"
              else "New IMEI discovered - device not found in API" |}.

(** Known device, critical event. *)
Definition critical_entry (now : Z) (ev : ExceptionLog) (d : option Device)
    (a : ActivityStatus) : CorrelationData :=
  {| imei := deviceImei ev;
     correlation_type := "exception_triggered";
     firebase_exception_id := id ev;
     api_response := RDeviceActivity d a;
     api_status := "success";
     correlation_result := determineCorrelationResult ev d a;
     notes := generateCorrelationNotes now ev d a |}.

(** Known device, non-critical event. *)
Definition noncritical_entry (ev : ExceptionLog) : CorrelationData :=
  {| imei := deviceImei ev;
     correlation_type := "exception_triggered";
     firebase_exception_id := id ev;
     api_response := RCachedStatus "known_imei_non_critical";
     api_status := "success";
     correlation_result := "confirmed";
     notes := "Non-critical exception for known IMEI - no API call made (event-driven optimization)" |}.

(** The two statements that close every correlation: the log insert and
    the stream-side inventory upsert. *)
Definition finish_event (env : Env) (ev : ExceptionLog) (c : CorrelationData)
    (w : World) : World :=
  snd (updateDeviceWithFirebaseData env (deviceImei ev) ev (snd (logCorrelation env c w))).

(** ** Concrete scenarios *)

(** An exception event with the given id, device and category. *)
Definition event (i imei m : string) : ExceptionLog :=
  {| id := i; createdAt := 0; details := ""; deviceImei := imei; main := m |}.

Definition T0 : Z := 1700000000000.

Definition tracker (i : string) : Device :=
  {| dev_imei := i; dev_name := "Truck"; dev_status := "online" |}.

Definition fix_at (i : string) (t : Z) : LocationData :=
  {| loc_imei := i; loc_timestamp := DateAt t |}.

(** A registry that has every device, last located one minute before
    [T0]. *)
Definition registry_up : Env :=
  {| fetch_devices := Body (true, [tracker "X"]);
     fetch_device := fun i => Body (Some (tracker i));
     fetch_locations := fun i _ => Body [fix_at i (T0 - 60 * 1000)];
     select_ok := true; upsert_ok := true; insert_ok := true |}.

(** A registry that answers, and has no record of any device. *)
Definition registry_empty : Env :=
  {| fetch_devices := Body (true, []);
     fetch_device := fun _ => Body None;
     fetch_locations := fun _ _ => Body [];
     select_ok := true; upsert_ok := true; insert_ok := true |}.

(** A registry whose every request times out. *)
Definition registry_down : Env :=
  {| fetch_devices := Fails "timeout of 10000ms exceeded";
     fetch_device := fun _ => Fails "timeout of 10000ms exceeded";
     fetch_locations := fun _ _ => Fails "timeout of 10000ms exceeded";
     select_ok := true; upsert_ok := true; insert_ok := true |}.

(** A world at time [now] with an empty cache and store, the given
    known set, refreshed just now. *)
Definition world_at (now : Z) (known : list string) : World :=
  {| clock := now; cache := ∅; knownIMEIs := list_to_set known;
     lastIMEIRefresh := now; device_inventory := ∅;
     api_correlation_logs := []; trace := [] |}.

(** At [T0], the three cache slots for device X were filled ten minutes
    ago: all are past the five-minute TTL. *)
Definition stale_world : World :=
  let filled := T0 - 10 * 60 * 1000 in
  with_cache
    (<["all-devices" := {| data := PDevices [tracker "X"]; timestamp := filled |}]>
     (<["device-X" := {| data := PDevice (Some (tracker "X")); timestamp := filled |}]>
      (<["locations-X-5" := {| data := PLocations [fix_at "X" filled]; timestamp := filled |}]>
       ∅)))
    (world_at T0 []).

(** A snapshot from the server holding one document. *)
Definition server_snapshot (ev : ExceptionLog) : list SnapshotDoc :=
  [{| doc := ev; hasPendingWrites := false; fromCache := false |}].

(** Device Y is known and reports ["GPS retry"]. *)
Definition gps_retry_on_Y : ExceptionLog := event "e2" "Y" "GPS retry".

Definition after_gps_retry : World :=
  snd (correlateExceptionEventDriven registry_up gps_retry_on_Y (world_at T0 ["Y"])).

(** An hour-old-or-more log of device Y with the given category. *)
Definition old_log (m : string) : ExceptionLog :=
  {| id := "e"; createdAt := T0 - 2 * 60 * 60 * 1000; details := "";
     deviceImei := "Y"; main := m |}.

(** Two critical logs, one warning and one recent log, and an ignition
    two hours ago. *)
Definition scored_logs : list ExceptionLog :=
  [old_log "Server Down"; old_log "CRITICAL fault"; old_log "GPS retry";
   {| id := "e"; createdAt := T0 - 1000; details := ""; deviceImei := "Y";
      main := "heartbeat" |}].

Definition scored_ignitions : list IgnitionLog :=
  [{| ign_id := "i2"; ign_createdAt := T0 - 2 * 60 * 60 * 1000 |};
   {| ign_id := "i1"; ign_createdAt := T0 - 30 * 60 * 60 * 1000 |}].

(** Device Y is known and reports ["Server retry"] or ["shutdown"]: not
    critical by the table, accepted by the correlator's gate. *)
Definition server_retry_on_Y : ExceptionLog := event "e4" "Y" "Server retry".

Definition after_server_retry : World :=
  snd (correlateExceptionEventDriven registry_up server_retry_on_Y (world_at T0 ["Y"])).

Definition shutdown_on_Y : ExceptionLog := event "e5" "Y" "shutdown".

Definition after_shutdown : World :=
  snd (correlateExceptionEventDriven registry_up shutdown_on_Y (world_at T0 ["Y"])).

(** Device X is unknown and reports ["Server Down"]: the registry has it,
    has no record of it, or times out. *)
Definition server_down_on_X : ExceptionLog := event "e1" "X" "Server Down".

Definition after_discovery : World :=
  snd (correlateExceptionEventDriven registry_up server_down_on_X (world_at T0 [])).

Definition after_failed_discovery : World :=
  snd (correlateExceptionEventDriven registry_empty server_down_on_X (world_at T0 [])).

Definition timeout_on_unknown : Outcome unit * World :=
  correlateExceptionEventDriven registry_down server_down_on_X (world_at T0 []).

Definition timeout_on_known : Outcome unit * World :=
  correlateExceptionEventDriven registry_down server_down_on_X (world_at T0 ["X"]).

(** Device Z is known, reports ["server down"], and the registry shows it
    active. *)
Definition server_down_on_Z : ExceptionLog := event "e3" "Z" "server down".

Definition after_conflict : World :=
  snd (correlateExceptionEventDriven registry_up server_down_on_Z (world_at T0 ["Z"])).

(** The snapshot holding Z's event is delivered at [T0] and again six
    minutes later. *)
Definition first_delivery : World :=
  snd (onSnapshot registry_up (server_snapshot server_down_on_Z) (world_at T0 ["Z"])).

Definition second_delivery : World :=
  snd (onSnapshot registry_up (server_snapshot server_down_on_Z)
         (with_clock (T0 + 6 * 60 * 1000) first_delivery)).

Definition event_ids (w : World) : list string :=
  (fun l => firebase_exception_id (entry l)) <$> api_correlation_logs w.

(** * Further code: manual check, device status, discovery, fleet counters, timestamps *)

(** [CorrelationService.manualDeviceCheck(imei)]: the manual counterpart of
    the event handler.  A manual entry has no event id. *)
Definition manualDeviceCheck (env : Env) (imei : string) : Async unit :=
  try_catch
    (let* deviceDetails := getDeviceByImei env imei in
     let* activityStatus := getDeviceActivityStatus env imei in
     logCorrelation env
       {| imei := imei;
          correlation_type := "manual";
          firebase_exception_id := "";
          api_response := RDeviceActivity deviceDetails activityStatus;
          api_status := if is_Some_dec deviceDetails then "success" else "error";
          correlation_result := if is_Some_dec deviceDetails then "confirmed" else "no_data";
          notes := "Manual check: Device "
                   +:+ (if is_Some_dec deviceDetails then "found" else "not found")
                   +:+ ", Activity: "
                   +:+ (if isActive activityStatus then "Active" else "Inactive") |};;
     match deviceDetails with
     | Some device =>
         updateDeviceInventory env device;;
         modify (fun w => with_known ({[imei]} ∪ knownIMEIs w) (lastIMEIRefresh w) w)
     | None => ret tt
     end)
    (fun error => ret tt).


(** What [getDeviceActivityStatus] guarantees about the status it returns. *)
Definition consistent_activity (a : ActivityStatus) : Prop :=
  0 <= locationCount a
  /\ (isActive a = true -> 1 <= locationCount a /\ exists t, lastActivity a = DateAt t)
  /\ (locationCount a = 0 -> isActive a = false /\ lastActivity a = NoDate).


(** The API-side columns of a row. *)
Definition api_columns (r : InventoryRow)
    : option string * option string * option Z * option bool * option Z * option Z :=
  (row_name r, row_status r, last_seen_api r, is_active_api r,
   location_count r, health_score r).


(** The entry [manualDeviceCheck] logs. *)
Definition manual_entry (i : string) (d : option Device) (a : ActivityStatus)
    : CorrelationData :=
  {| imei := i;
     correlation_type := "manual";
     firebase_exception_id := "";
     api_response := RDeviceActivity d a;
     api_status := if is_Some_dec d then "success" else "error";
     correlation_result := if is_Some_dec d then "confirmed" else "no_data";
     notes := "Manual check: Device "
              +:+ (if is_Some_dec d then "found" else "not found")
              +:+ ", Activity: "
              +:+ (if isActive a then "Active" else "Inactive") |}.


(** ** More scenarios *)

(** Ten minutes after a manual check of the unknown device Y. *)
Definition after_manual_check : World :=
  with_clock (T0 + 10 * 60 * 1000)
    (snd (manualDeviceCheck registry_up "Y" (world_at T0 []))).

(** A registry that has every device, located by one sample whose
    timestamp string is not a date. *)
Definition registry_garbled : Env :=
  {| fetch_devices := Body (true, [tracker "X"]);
     fetch_device := fun i => Body (Some (tracker i));
     fetch_locations := fun i _ => Body [{| loc_imei := i; loc_timestamp := InvalidDate |}];
     select_ok := true; upsert_ok := true; insert_ok := true |}.

(** A snapshot whose documents come from the local cache or have pending
    writes. *)
Definition cached_snapshot (ev : ExceptionLog) : list SnapshotDoc :=
  [{| doc := ev; hasPendingWrites := false; fromCache := true |};
   {| doc := ev; hasPendingWrites := true; fromCache := false |}].


Module FirebaseService.

(** [calculateDeviceStatus(exceptionLogs, ignitionLogs)] ([lib/firebase.ts]);
    [now] is [new Date()], [createdAt] stands for
    [this.parseTimestamp(log.createdAt)]. *)
Definition is_recent_critical (now : Z) (log : ExceptionLog) : bool :=
  let mainText := toLowerCase (or_else (main log) "") in
  bool_decide (now - 60 * 60 * 1000 < createdAt log)
  && (bool_decide (mainText = "server down")
      || includes mainText "critical"
      || includes mainText "error").

Definition is_recent_warning (now : Z) (log : ExceptionLog) : bool :=
  let mainText := toLowerCase (or_else (main log) "") in
  bool_decide (now - 60 * 60 * 1000 < createdAt log)
  && (includes mainText "retry" || includes mainText "warning").

Definition calculateDeviceStatus (now : Z)
    (exceptionLogs : list ExceptionLog) (ignitionLogs : list IgnitionLog) : string :=
  let recentCriticalExceptions :=
    filter (fun l => is_recent_critical now l = true) exceptionLogs in
  if (0 <? length recentCriticalExceptions)%nat then "critical"
  else
    let recentWarnings := filter (fun l => is_recent_warning now l = true) exceptionLogs in
    if (2 <? length recentWarnings)%nat then "warning"
    else "healthy".

End FirebaseService.

(** Severity of a device status, for comparing two of them. *)
Definition status_rank (status : string) : nat :=
  if String.eqb status "critical" then 2
  else if String.eqb status "warning" then 1
  else 0.


(** The cap the status puts on the overview score. *)
Definition score_cap (status : string) : Z :=
  if String.eqb status "critical" then 95
  else if String.eqb status "warning" then 60
  else 100.


(** ** Device discovery ([lib/firebase.ts]) *)

(** What the event store answers to the three reads of [discoverDevices]:
    the document ids of the [devices] collection, whether
    [devices/{id}/exception_logs] is empty, and the [deviceImei] field of
    every document of the [exception_logs] collection group ([""] when the
    field is absent).  Each read may throw. *)
Record Firestore := {
  devices_collection : Fetched (list string);
  exception_logs_empty : string -> Fetched bool;
  exception_logs_group : Fetched (list string)
}.

(** [[...new Set(l)]]: the first occurrence of each element, in order. *)
Fixpoint distinct_from (seen l : list string) : list string :=
  match l with
  | [] => []
  | x :: r =>
      if decide (x ∈ seen) then distinct_from seen r
      else x :: distinct_from (x :: seen) r
  end.

Definition distinct (l : list string) : list string := distinct_from [] l.

Definition ULTIMATE_FALLBACK : string := "865632050467004".

Definition knownPatterns : list string :=
  ["865632050467004"; "865632050467005"; "865632050467006"; "865632050467007"].

Definition manualDevices : list string := ["865632050467004"].

(** The loop shared by methods 1, 3 and 4: keep the ids whose exception
    logs are not empty; an id whose read throws is skipped. *)
Fixpoint with_exception_logs (store : Firestore) (ids : list string) : list string :=
  match ids with
  | [] => []
  | deviceId :: rest =>
      match exception_logs_empty store deviceId with
      | Body false => deviceId :: with_exception_logs store rest
      | Body true => with_exception_logs store rest
      | Fails _ => with_exception_logs store rest
      end
  end.

Definition is_nil {A} (l : list A) : bool :=
  match l with [] => true | _ => false end.

(** [discoverDevices()] *)
Definition discoverDevices (store : Firestore) : list string :=
  match devices_collection store with
  | Fails _ => [ULTIMATE_FALLBACK]
  | Body docs =>
      (* Method 1 *)
      let deviceImeis := with_exception_logs store docs in
      (* Method 2 *)
      let deviceImeis :=
        if is_nil deviceImeis then
          match exception_logs_group store with
          | Body imeis =>
              deviceImeis ++ distinct (filter (fun i => truthy i = true) imeis)
          | Fails _ => deviceImeis
          end
        else deviceImeis in
      (* Method 3 *)
      let deviceImeis :=
        if is_nil deviceImeis
        then deviceImeis ++ with_exception_logs store knownPatterns
        else deviceImeis in
      (* Method 4 *)
      let deviceImeis :=
        if is_nil deviceImeis
        then deviceImeis ++ with_exception_logs store manualDevices
        else deviceImeis in
      let uniqueDevices := distinct deviceImeis in
      if is_nil uniqueDevices then [ULTIMATE_FALLBACK] else uniqueDevices
  end.

(** Where a discovered id can come from. *)
Definition discoverable (store : Firestore) (i : string) : Prop :=
  i = ULTIMATE_FALLBACK
  \/ (exception_logs_empty store i = Body false
      /\ (i ∈ knownPatterns \/ exists docs, devices_collection store = Body docs /\ i ∈ docs))
  \/ (truthy i = true /\ exists imeis, exception_logs_group store = Body imeis /\ i ∈ imeis).


(** ** Fleet counters ([AnalyticsService.getFleetAnalytics], [lib/analytics.ts]) *)

Module AnalyticsService.

(** [d.health_score] under [>=] and [<]: a [null] column compares as 0. *)
Definition score (d : InventoryRow) : Z := default 0 (health_score d).

(** [devices?.filter(p).length || 0]; [None] is a [null] result. *)
Definition count_where (p : InventoryRow -> bool) (devices : option (list InventoryRow)) : Z :=
  match devices with
  | None => 0
  | Some rows => Z.of_nat (length (filter (fun d => p d = true) rows))
  end.

(** [devices?.length || 0] *)
Definition totalDevices (devices : option (list InventoryRow)) : Z :=
  match devices with
  | None => 0
  | Some rows => Z.of_nat (length rows)
  end.

Definition healthyDevices := count_where (fun d => 70 <=? score d).
Definition warningDevices := count_where (fun d => (40 <=? score d) && (score d <? 70)).
Definition criticalDevices := count_where (fun d => score d <? 40).

(** [deviceHealthDistribution], the counts in the order of the source:
    90-100%, 70-89%, 50-69%, 30-49%, 0-29%. *)
Definition deviceHealthDistribution (devices : option (list InventoryRow)) : list Z :=
  [count_where (fun d => 90 <=? score d) devices;
   count_where (fun d => (70 <=? score d) && (score d <? 90)) devices;
   count_where (fun d => (50 <=? score d) && (score d <? 70)) devices;
   count_where (fun d => (30 <=? score d) && (score d <? 50)) devices;
   count_where (fun d => score d <? 30) devices].

End AnalyticsService.

Definition sum_list (l : list Z) : Z := foldr Z.add 0 l.


(** ** Timestamp parsing ([lib/timestamp-utils.ts]) *)

Module TimestampUtils.

(** [TimestampInput = Timestamp | string | Date | number | null | undefined]:
    a Firestore [Timestamp] by the instant it holds, a [Date] by its time
    value ([None] is an Invalid Date), a number as an integer or [NaN]
    ([None]). *)
Inductive TimestampInput :=
| TsNullish
| TsTimestamp (millis : Z)
| TsDate (time : option Z)
| TsNumber (n : option Z)
| TsString (s : string).

(** [!timestamp] *)
Definition falsy (timestamp : TimestampInput) : bool :=
  match timestamp with
  | TsNullish => true
  | TsNumber None => true
  | TsNumber (Some n) => n =? 0
  | TsString s => negb (truthy s)
  | TsTimestamp _ | TsDate _ => false
  end.

(** [s.split(sep)] for a one-character separator. *)
Fixpoint split (sep : ascii) (s : string) : list string :=
  match s with
  | EmptyString => [EmptyString]
  | String c r =>
      if Ascii.eqb c sep then EmptyString :: split sep r
      else match split sep r with
           | piece :: pieces => String c piece :: pieces
           | [] => [String c EmptyString]
           end
  end.

(** [s.padStart(2, '0')] *)
Definition padStart2 (s : string) : string :=
  match s with
  | EmptyString => "00"
  | String c EmptyString => String "0" s
  | _ => s
  end.

(** The time value of [new Date(n)]: valid within 8.64e15 ms of the epoch. *)
Definition date_of_number (n : Z) : option Z :=
  if (-8640000000000000 <=? n) && (n <=? 8640000000000000) then Some n else None.

Section Parsing.

(** [new Date(string)]: the time value, [None] for an Invalid Date. *)
Variable date_of_string : string -> option Z.

(** The ISO string [parseTimestamp] builds from a day-first string, when
    all its pieces are present. *)
Definition day_first_iso (timestamp : string) : option string :=
  if includes timestamp "/" && includes timestamp " " then
    match split " " timestamp with
    | datePart :: timePart :: _ =>
        if truthy datePart && truthy timePart then
          match split "/" datePart with
          | day :: month :: year :: _ =>
              if truthy day && truthy month && truthy year
              then Some (year +:+ "-" +:+ padStart2 month +:+ "-" +:+ padStart2 day
                         +:+ "T" +:+ timePart)
              else None
          | _ => None
          end
        else None
    | _ => None
    end
  else None.

(** [parseTimestamp(timestamp)]; [now] is [new Date()].  The result is the
    time value of the returned [Date], [None] for an Invalid Date. *)
Definition parseTimestamp (now : Z) (timestamp : TimestampInput) : option Z :=
  if falsy timestamp then Some now
  else
    match timestamp with
    | TsNullish => Some now
    | TsTimestamp millis => Some millis
    | TsDate time =>
        match time with
        | None => Some now
        | Some t => Some t
        end
    | TsNumber n =>
        match n ≫= date_of_number with
        | None => Some now
        | Some t => Some t
        end
    | TsString s =>
        let from_day_first :=
          match day_first_iso s with
          | Some isoString => date_of_string isoString
          | None => None
          end in
        match from_day_first with
        | Some t => Some t
        | None =>
            match date_of_string s with
            | Some t => Some t
            | None => Some now
            end
        end
    end.

(** [isValidTimestamp(timestamp)] *)
Definition isValidTimestamp (now : Z) (timestamp : TimestampInput) : bool :=
  if falsy timestamp then false
  else match parseTimestamp now timestamp with
       | Some _ => true
       | None => false
       end.

End Parsing.

End TimestampUtils.


(** A [Date] parser that knows one ISO string. *)
Definition iso_only (s : string) : option Z :=
  if String.eqb s "2024-03-05T10:15:00.000" then Some 1709633700000 else None.


(** An event store listing A, B and A again, where B has no exception
    logs and the collection-group query is refused. *)
Definition store_with_history : Firestore :=
  {| devices_collection := Body ["A"; "B"; "A"];
     exception_logs_empty := fun i => if String.eqb i "B" then Body true else Body false;
     exception_logs_group := Fails "permission-denied" |}.

(** An exception an hour-old status check still sees. *)
Definition recent_error : ExceptionLog :=
  {| id := "e"; createdAt := T0 - 1000; details := "";
     deviceImei := "X"; main := "Network error" |}.

(** A registry whose device list comes back with [success = false]. *)
Definition registry_refusing : Env :=
  {| fetch_devices := Body (false, [tracker "X"]);
     fetch_device := fun _ => Body None;
     fetch_locations := fun _ _ => Body [];
     select_ok := true; upsert_ok := true; insert_ok := true |}.

(** * Properties *)

(** ** Strings *)

Lemma or_else_empty (s : string) : or_else s "" = s.
Proof. by destruct s. Qed.

Lemma prefix_app_l (a b s : string) :
  String.prefix (a +:+ b) s = true -> String.prefix a s = true.
Proof.
  revert s; induction a as [|c a IH]; intros s H.
  - by destruct s.
  - destruct s as [|c' s]; [done|].
    change (String c a +:+ b) with (String c (a +:+ b)) in H. cbn in *.
    destruct (Ascii.ascii_dec c c'); [eauto | done].
Qed.

(** A text that includes a phrase includes every prefix of the phrase. *)
Lemma includes_app_l (s a b : string) :
  includes s (a +:+ b) = true -> includes s a = true.
Proof.
  induction s as [|c s IH]; cbn [includes]; intros H.
  - apply orb_true_iff in H as [H|H]; [|done].
    apply prefix_app_l in H. by rewrite H.
  - apply orb_true_iff in H as [H|H].
    + apply prefix_app_l in H. by rewrite H.
    + rewrite (IH H). apply orb_true_r.
Qed.

(** ** Health scorers *)

Lemma api_score_values (isActive : bool) (locationCount : Z) :
  20 <= calculateHealthScore isActive locationCount <= 100.
Proof.
  unfold calculateHealthScore.
  destruct isActive; cbn [negb];
    destruct (locationCount =? 0); try destruct (locationCount <? 3); lia.
Qed.

Lemma overview_score_clamped now ex ig :
  0 <= OverviewTab.calculateHealthScore now ex ig <= 100.
Proof. unfold OverviewTab.calculateHealthScore. cbv zeta. lia. Qed.

(** A log list with two critical, one warning and one recent exception
    and an ignition two hours old scores 50. *)
Example overview_score_scenario :
  let now := 1000 * 3600 * 1000 in
  let old := 0 in
  let ex m t := {| id := "e"; createdAt := t; details := ""; deviceImei := "Y"; main := m |} in
  OverviewTab.calculateHealthScore now
    [ex "Server Down" old; ex "CRITICAL fault" old; ex "GPS retry" old;
     ex "heartbeat" (now - 1000)]
    [{| ign_id := "i"; ign_createdAt := now - 2 * 3600 * 1000 |}] = 50.
Proof. vm_compute. reflexivity. Qed.

(** Counting with a test is filtering by it and taking the length. *)
Lemma count_logs_filter (counted kept : ExceptionLog -> bool) (logs : list ExceptionLog) :
  (forall log, counted log = kept log) ->
  count_logs counted logs = Z.of_nat (length (filter (fun l => kept l = true) logs)).
Proof.
  intros Hsame. induction logs as [|log rest IH]; [reflexivity|].
  cbn [count_logs]. rewrite filter_cons, IH, Hsame.
  destruct (kept log); case_decide; try done; cbn [length]; lia.
Qed.

Lemma count_logs_ext (p q : ExceptionLog -> bool) (logs : list ExceptionLog) :
  Forall (fun log => p log = q log) logs -> count_logs p logs = count_logs q logs.
Proof.
  induction 1 as [|log rest Hlog _ IH]; [reflexivity|].
  cbn [count_logs]. by rewrite Hlog, IH.
Qed.

Lemma scored_critical_is_filter (log : ExceptionLog) :
  scored_critical log = OverviewTab.is_critical_log log.
Proof.
  unfold scored_critical, OverviewTab.is_critical_log. cbv zeta.
  rewrite or_else_empty. f_equal.
  destruct (String.eqb_spec (toLowerCase (main log)) "server down");
    [by rewrite bool_decide_eq_true_2 | by rewrite bool_decide_eq_false_2].
Qed.

Lemma scored_warning_is_filter (log : ExceptionLog) :
  scored_warning log = OverviewTab.is_warning_log log.
Proof.
  unfold scored_warning, OverviewTab.is_warning_log. cbv zeta.
  by rewrite or_else_empty.
Qed.

Lemma within_hour_is_filter (now : Z) (log : ExceptionLog) :
  (now - createdAt log <? 60 * 60 * 1000) = OverviewTab.is_recent_log now log.
Proof.
  unfold OverviewTab.is_recent_log.
  destruct (Z.ltb_spec (now - createdAt log) (60 * 60 * 1000));
    [rewrite bool_decide_eq_true_2 | rewrite bool_decide_eq_false_2]; lia.
Qed.

Lemma first_ignition_recent_is_bonus_test (now : Z) (ignitionLogs : list IgnitionLog) :
  first_ignition_recent now ignitionLogs = OverviewTab.has_recent_ignition now ignitionLogs.
Proof.
  destruct ignitionLogs as [|first rest]; [reflexivity|]. cbn.
  destruct (Z.ltb_spec (now - ign_createdAt first) (24 * 60 * 60 * 1000));
    [rewrite bool_decide_eq_true_2 | rewrite bool_decide_eq_false_2]; lia.
Qed.

(** When no log is later than the first, the first is recent exactly
    when some log is. *)
Lemma first_ignition_recent_latest (now : Z) (ignitionLogs : list IgnitionLog) :
  latest_first ignitionLogs ->
  first_ignition_recent now ignitionLogs = spec_hasRecentIgnition now ignitionLogs.
Proof.
  destruct ignitionLogs as [|first rest]; [reflexivity|].
  unfold latest_first, first_ignition_recent, spec_hasRecentIgnition.
  cbn [existsb]. intros Hlate.
  destruct (Z.ltb_spec (now - ign_createdAt first) (24 * 60 * 60 * 1000)) as [Hin|Hout];
    [reflexivity|].
  cbn [orb]. symmetry.
  induction Hlate as [|log rest' Hlog _ IH]; [reflexivity|].
  cbn [existsb]. rewrite IH, orb_false_r. apply Z.ltb_ge. lia.
Qed.

Lemma spec_score_clamp (c wn r : Z) (i : bool) :
  spec_score c wn r i
  = Z.max 0 (Z.min 100 (100 - 20 * c - 5 * wn - 10 * r + (if i then 5 else 0))).
Proof.
  unfold spec_score. cbv zeta.
  set (raw := 100 - 20 * c - 5 * wn - 10 * r + (if i then 5 else 0)).
  destruct (Z.ltb_spec raw 0); [lia|]. destruct (Z.ltb_spec 100 raw); lia.
Qed.

(** C5, as the code has it: the exception/ignition scorer of the overview
    tab is 100 - 20*critical - 5*warning - 10*recent, plus 5 for a recent
    ignition, clamped to [0, 100], where the counts come from the scorer's
    own tests and not from the classification table: critical counts the
    logs whose lower-cased category is exactly "server down" or has
    "critical" in it, warning those with "retry" or "warning" in it
    (counted as critical or not), recent those less than an hour old, and
    the bonus looks at the first ignition log only.  On logs whose
    categories the tests and the table classify alike, with the ignition
    logs listed latest first, it is the specification's formula over the
    table's counts; the formula gives 50 on (2, 1, 1, true). *)
Theorem overview_score_counts_by_its_own_tests
    (now : Z) (exceptionLogs : list ExceptionLog) (ignitionLogs : list IgnitionLog) :
  let score := OverviewTab.calculateHealthScore now exceptionLogs ignitionLogs in
  score = spec_score (count_logs scored_critical exceptionLogs)
                     (count_logs scored_warning exceptionLogs)
                     (spec_recentCount now exceptionLogs)
                     (first_ignition_recent now ignitionLogs)
  /\ (Forall table_agrees exceptionLogs -> latest_first ignitionLogs ->
      score = spec_overview_score now exceptionLogs ignitionLogs)
  /\ spec_score 2 1 1 true = 50.
Proof.
  cbv zeta.
  assert (OverviewTab.calculateHealthScore now exceptionLogs ignitionLogs
          = spec_score (count_logs scored_critical exceptionLogs)
                       (count_logs scored_warning exceptionLogs)
                       (spec_recentCount now exceptionLogs)
                       (first_ignition_recent now ignitionLogs)) as Hscore.
  { rewrite spec_score_clamp. unfold spec_recentCount.
    rewrite (count_logs_filter _ _ _ scored_critical_is_filter),
            (count_logs_filter _ _ _ scored_warning_is_filter),
            (count_logs_filter _ _ _ (within_hour_is_filter now)),
            first_ignition_recent_is_bonus_test.
    unfold OverviewTab.calculateHealthScore, OverviewTab.criticalCount,
           OverviewTab.warningCount, OverviewTab.recentCount. cbv zeta.
    destruct (OverviewTab.has_recent_ignition now ignitionLogs); f_equal; f_equal; lia. }
  split; [exact Hscore|]. split; [|reflexivity].
  intros Hagree Hlatest. rewrite Hscore.
  unfold spec_overview_score, spec_criticalCount, spec_warningCount.
  rewrite (first_ignition_recent_latest _ _ Hlatest). f_equal.
  - apply count_logs_ext. eapply Forall_impl; [exact Hagree|]. by intros log [Hc _].
  - apply count_logs_ext. eapply Forall_impl; [exact Hagree|]. by intros log [_ Hw].
Qed.

Lemma overview_score_counts_by_its_own_tests_witness :
  spec_criticalCount scored_logs = 2
  /\ spec_warningCount scored_logs = 1
  /\ spec_recentCount T0 scored_logs = 1
  /\ spec_hasRecentIgnition T0 scored_ignitions = true
  /\ OverviewTab.calculateHealthScore T0 scored_logs scored_ignitions = 50.
Proof.
  repeat (split; [reflexivity|]).
  destruct (overview_score_counts_by_its_own_tests T0 scored_logs scored_ignitions)
    as (_ & H & _).
  rewrite H; [reflexivity | | ].
  - repeat constructor.
  - repeat constructor; cbn; lia.
Defined.

(** C5 as stated fails: with the counts of the classification table the
    formula and the scorer differ.  An hour-old ["Device offline"] or
    ["Server down again"] is critical by the table (formula 80) and costs
    nothing in the scorer (100); ["Performance degraded"] is a warning by
    the table (95) and costs nothing (100); ["Critical retry"] is critical
    by the table (80) and is counted as critical and as a warning (75). *)
Lemma overview_score_departs_from_table :
  spec_overview_score T0 [old_log "Device offline"] [] = 80
  /\ OverviewTab.calculateHealthScore T0 [old_log "Device offline"] [] = 100
  /\ spec_overview_score T0 [old_log "Server down again"] [] = 80
  /\ OverviewTab.calculateHealthScore T0 [old_log "Server down again"] [] = 100
  /\ spec_overview_score T0 [old_log "Performance degraded"] [] = 95
  /\ OverviewTab.calculateHealthScore T0 [old_log "Performance degraded"] [] = 100
  /\ spec_overview_score T0 [old_log "Critical retry"] [] = 80
  /\ OverviewTab.calculateHealthScore T0 [old_log "Critical retry"] [] = 75.
Proof. vm_compute. repeat split. Qed.

(** C10: the API-activity scorer never returns less than 20, and 20 is
    reached for an inactive device with no location sample. *)
Theorem api_score_at_least_20 (isActive : bool) (locationCount : Z) :
  20 <= calculateHealthScore isActive locationCount
  /\ calculateHealthScore false 0 = 20.
Proof. split; [apply api_score_values | reflexivity]. Qed.

(** ** Classification *)

Lemma spec_classify_critical (text : string) :
  spec_classify text = "critical" ->
  includes (toLowerCase text) "critical"
  || includes (toLowerCase text) "server down"
  || includes (toLowerCase text) "offline" = true.
Proof.
  unfold spec_classify. cbv zeta.
  destruct (_ || _ || _); [done|].
  destruct (_ || _ || _); discriminate.
Qed.

(** C4, as the code has it: on a non-empty text the analytics severity
    function is the specification's table, and the correlator's gate
    accepts every text the table calls critical (the gate is a wider
    test: any of [server], [critical], [down], [offline]). *)
Theorem analytics_is_table_gate_covers_critical (ev : ExceptionLog) :
  main ev <> "" ->
  getSeverityFromExceptionType (Some (main ev)) = spec_classify (main ev)
  /\ (spec_classify (main ev) = "critical" -> isCriticalException ev = true).
Proof.
  intros Hne. split.
  - unfold getSeverityFromExceptionType, spec_classify. cbv zeta.
    destruct (main ev) as [|c r] eqn:E; [done|]. cbn [truthy negb].
    destruct (_ || _ || _); [done|].
    by rewrite <- !orb_assoc,
      (orb_comm (includes _ "degraded") (includes _ "retry")).
  - intros H%spec_classify_critical.
    unfold isCriticalException. cbv zeta. rewrite or_else_empty.
    apply orb_true_iff in H as [H|H]; [apply orb_true_iff in H as [H|H]|].
    + rewrite H. by rewrite !orb_true_r.
    + apply (includes_app_l _ "server" " down") in H. by rewrite H.
    + rewrite H. by rewrite !orb_true_r.
Qed.

Lemma analytics_is_table_gate_covers_critical_witness :
  main server_down_on_X <> ""
  /\ getSeverityFromExceptionType (Some "Server Down") = "critical"
  /\ isCriticalException server_down_on_X = true.
Proof.
  split; [discriminate|].
  destruct (analytics_is_table_gate_covers_critical server_down_on_X)
    as [H1 H2]; [discriminate|].
  split; [exact H1 | apply H2; reflexivity].
Defined.

(** The gate and the table disagree: ["shutdown"] passes the gate (it
    includes [down]) while the table and the analytics function call it
    info.  On an empty or absent text the analytics function answers
    ["unknown"], where the table says info. *)
Lemma gate_disagrees_with_table :
  isCriticalException (event "e1" "X" "shutdown") = true
  /\ spec_classify "shutdown" = "info"
  /\ getSeverityFromExceptionType (Some "shutdown") = "info"
  /\ spec_classify "" = "info"
  /\ getSeverityFromExceptionType (Some "") = "unknown"
  /\ getSeverityFromExceptionType None = "unknown".
Proof. repeat split; reflexivity. Qed.

Lemma includes_app_r (s a b : string) :
  includes s (a +:+ b) = true -> includes s b = true.
Proof.
  revert s. induction a as [|c a IH]; intros s H; [exact H|].
  induction s as [|c' s IHs].
  - cbn in H. discriminate.
  - change (String c a +:+ b) with (String c (a +:+ b)) in H.
    cbn [includes] in H. cbn [includes].
    apply orb_true_iff in H as [H|H].
    + cbn in H. destruct (Ascii.ascii_dec c c'); [|done].
      assert (includes s (a +:+ b) = true) as H'.
      { destruct s; cbn [includes]; by rewrite H. }
      rewrite (IH _ H'). apply orb_true_r.
    + rewrite (IHs H). apply orb_true_r.
Qed.

(** ** Traces *)

Lemma api_calls_app t u : api_calls (t ++ u) = api_calls t ++ api_calls u.
Proof. apply omap_app. Qed.

Lemma http_requests_app t u :
  http_requests (t ++ u) = http_requests t ++ http_requests u.
Proof. apply omap_app. Qed.

Lemma log_writes_app t u : log_writes (t ++ u) = log_writes t ++ log_writes u.
Proof. apply omap_app. Qed.

Lemma upserts_app t u : upserts (t ++ u) = upserts t ++ upserts u.
Proof. apply omap_app. Qed.

Lemma answer_returned {A} (dflt a : A) (r : Outcome A * World) w :
  r = (Returned a, w) -> answer dflt r = a.
Proof. by intros ->. Qed.

Lemma answer_bool_cases (r : Outcome bool * World) :
  answer true r = false \/ answer false r = true \/ exists e, fst r = Thrown e.
Proof. unfold answer. destruct r as [[[|]|e] w]; cbn; eauto. Qed.

(** Unfold the monad and the cache primitives, then compute. *)
Ltac run :=
  unfold bind, try_catch, emit, modify, gets, ret, throw,
         isCacheValid, setCache, getCache, makeRequest; cbn.

(** Push the trace readers through the appended effects. *)
Ltac observe :=
  cbn;
  rewrite ?api_calls_app, ?http_requests_app, ?log_writes_app, ?upserts_app;
  cbn; rewrite ?app_nil_r, <- ?app_assoc; cbn.

Ltac settle :=
  eexists _, _; split; [reflexivity|]; unfold api_step, store_frame; observe; done.

(** ** The registry cache *)

Lemma api_step_trans c1 c2 w1 w2 w3 :
  api_step c1 w1 w2 -> api_step c2 w2 w3 -> api_step (c1 ++ c2) w1 w3.
Proof.
  unfold api_step, store_frame. intros (F1 & A1) (F2 & A2).
  destruct_and!. rewrite A2, A1, app_assoc. repeat split; congruence.
Qed.

(** The three getters always return: a request error never reaches the
    caller. *)
Lemma getDeviceByImei_spec env i w :
  exists d w', getDeviceByImei env i w = (Returned d, w')
    /\ api_step [MGetDeviceByImei i] w w'.
Proof.
  unfold getDeviceByImei. run.
  destruct (cache w !! _) as [c|]; cbn; [case_bool_decide; cbn|];
    try destruct (fetch_device env i); cbn; settle.
Qed.

Lemma getDeviceLocations_spec env i n w :
  exists l w', getDeviceLocations env i n w = (Returned l, w')
    /\ api_step [MGetDeviceLocations i n] w w'.
Proof.
  unfold getDeviceLocations. run.
  destruct (cache w !! _) as [c|]; cbn; [case_bool_decide; cbn|];
    try destruct (fetch_locations env i n); cbn; settle.
Qed.

Lemma getAllDevices_spec env w :
  exists l w', getAllDevices env w = (Returned l, w')
    /\ api_step [MGetAllDevices] w w'.
Proof.
  unfold getAllDevices. run.
  destruct (cache w !! _) as [c|]; cbn; [case_bool_decide; cbn|];
    try destruct (fetch_devices env); cbn; settle.
Qed.

Lemma getDeviceActivityStatus_spec env i w :
  exists a w', getDeviceActivityStatus env i w = (Returned a, w')
    /\ api_step [MGetDeviceActivityStatus i; MGetDeviceLocations i 5] w w'.
Proof.
  unfold getDeviceActivityStatus. unfold bind at 1, emit, modify. cbn.
  unfold try_catch, bind at 1.
  destruct (getDeviceLocations_spec env i 5
    (with_trace (trace w ++ [ApiInvoke (MGetDeviceActivityStatus i)]) w))
    as (l & w' & E & S). rewrite E. run.
  eexists _, _. split; [reflexivity|].
  change [MGetDeviceActivityStatus i; MGetDeviceLocations i 5]
    with ([MGetDeviceActivityStatus i] ++ [MGetDeviceLocations i 5]).
  eapply api_step_trans; [|exact S].
  unfold api_step, store_frame; observe; done.
Qed.

(** A slot younger than the TTL is served without a request. *)
Lemma getDeviceByImei_fresh env i w :
  answer false (isCacheValid ("device-" +:+ i) w) = true ->
  getDeviceByImei env i w
  = (Returned (as_device (data <$> cache w !! ("device-" +:+ i))),
     with_trace (trace w ++ [ApiInvoke (MGetDeviceByImei i)]) w).
Proof.
  unfold answer, isCacheValid, gets. cbn. intros H.
  unfold getDeviceByImei. run. by rewrite H.
Qed.

(** The device list falls back to the slot, whatever its age, when the
    request fails. *)
Lemma getAllDevices_failure env w message :
  answer true (isCacheValid "all-devices" w) = false ->
  fetch_devices env = Fails message ->
  fst (getAllDevices env w)
  = Returned (as_devices (data <$> cache w !! "all-devices")).
Proof.
  unfold answer, isCacheValid, gets. cbn. intros H F.
  unfold getAllDevices. run. by rewrite H, F.
Qed.

(** The per-device getters do not: a failed request gives [null] / [[]]
    even when the slot is filled. *)
Lemma getDeviceByImei_failure env i w message :
  answer true (isCacheValid ("device-" +:+ i) w) = false ->
  fetch_device env i = Fails message ->
  fst (getDeviceByImei env i w) = Returned None.
Proof.
  unfold answer, isCacheValid, gets. cbn. intros H F.
  unfold getDeviceByImei. run. by rewrite H, F.
Qed.

Lemma getDeviceLocations_failure env i n w message :
  answer true (isCacheValid ("locations-" +:+ i +:+ "-" +:+ pretty n) w) = false ->
  fetch_locations env i n = Fails message ->
  fst (getDeviceLocations env i n w) = Returned [].
Proof.
  unfold answer, isCacheValid, gets. cbn. intros H F.
  unfold getDeviceLocations. run. by rewrite H, F.
Qed.

(** C7, at a failing input: with all three slots ten minutes old and the
    registry timing out, the device list is served from its stale slot,
    while the device detail comes back [null] and the locations empty
    although their slots hold a value. *)
Theorem stale_entry_is_served_for_the_device_list_only :
  data <$> cache stale_world !! "device-X" = Some (PDevice (Some (tracker "X")))
  /\ data <$> cache stale_world !! "locations-X-5"
     = Some (PLocations [fix_at "X" (T0 - 10 * 60 * 1000)])
  /\ fst (getAllDevices registry_down stale_world) = Returned [tracker "X"]
  /\ fst (getDeviceByImei registry_down "X" stale_world) = Returned None
  /\ fst (getDeviceLocations registry_down "X" 5 stale_world) = Returned [].
Proof. vm_compute. repeat split. Qed.

(** ** Steps of the correlator *)

Lemma isIMEIKnown_spec env i w :
  exists b w', isIMEIKnown env i w = (Returned b, w')
    /\ b = bool_decide (i ∈ knownIMEIs w')
    /\ refresh_frame w w'.
Proof.
  unfold isIMEIKnown, refreshKnownIMEIs. run.
  case_bool_decide; cbn; [|destruct (select_ok env); cbn];
    (eexists _, _; split; [reflexivity|]); unfold refresh_frame; observe; done.
Qed.

Lemma score_ok_api i n s seen act cnt upd :
  score_ok (ApiFields i n s seen act cnt (calculateHealthScore act cnt) upd) = true.
Proof.
  cbn [score_ok]. pose proof (api_score_values act cnt).
  apply andb_true_iff; split; apply Z.leb_le; lia.
Qed.

(** The inventory update always returns; it sends one upsert, or none
    when the last-activity string is not a date. *)
Lemma updateDeviceInventory_spec env d w :
  exists w' us, updateDeviceInventory env d w = (Returned tt, w')
    /\ clock w' = clock w
    /\ knownIMEIs w' = knownIMEIs w
    /\ lastIMEIRefresh w' = lastIMEIRefresh w
    /\ api_correlation_logs w' = api_correlation_logs w
    /\ log_writes (trace w') = log_writes (trace w)
    /\ api_calls (trace w') = api_calls (trace w)
         ++ [MGetDeviceActivityStatus (dev_imei d); MGetDeviceLocations (dev_imei d) 5]
    /\ upserts (trace w') = upserts (trace w) ++ us
    /\ forallb score_ok us = true.
Proof.
  unfold updateDeviceInventory, try_catch, bind at 1.
  destruct (getDeviceActivityStatus_spec env (dev_imei d) w)
    as (a & w1 & E & (F & A)). rewrite E.
  destruct F as (Fc & Fk & Fr & Fi & Fl & Fw & Fu).
  unfold upsertInventory, toISOString_or_null. run.
  destruct (lastActivity a); cbn.
  3:{ exists w1, []. rewrite app_nil_r. repeat split; congruence. }
  all: destruct (upsert_ok env); cbn;
    (eexists _, [_]; split; [reflexivity|]); observe;
    (repeat split; try congruence;
     [rewrite Fu; reflexivity | cbn [forallb]; by rewrite score_ok_api]).
Qed.

Lemma logCorrelation_eq env c w :
  logCorrelation env c w =
  (Returned tt,
   let row := {| entry := c; created_at := clock w |} in
   let w1 := with_trace (trace w ++ [DbInsertLog row]) w in
   if insert_ok env then with_logs (api_correlation_logs w ++ [row]) w1 else w1).
Proof. unfold logCorrelation. run. by destruct (insert_ok env). Qed.

Lemma updateDeviceWithFirebaseData_eq env i ev w :
  updateDeviceWithFirebaseData env i ev w =
  (Returned tt,
   let u := FirebaseFields i (clock w) false (or_else (main ev) "Unknown") (clock w) in
   let w1 := with_trace (trace w ++ [DbUpsert u]) w in
   if upsert_ok env then with_inventory (apply_upsert u (device_inventory w)) w1 else w1).
Proof.
  unfold updateDeviceWithFirebaseData, upsertInventory. run.
  by destruct (upsert_ok env).
Qed.

Lemma logCorrelation_ret env c w :
  logCorrelation env c w = (Returned tt, snd (logCorrelation env c w)).
Proof. by rewrite logCorrelation_eq. Qed.

Lemma updateDeviceWithFirebaseData_ret env i ev w :
  updateDeviceWithFirebaseData env i ev w
  = (Returned tt, snd (updateDeviceWithFirebaseData env i ev w)).
Proof. by rewrite updateDeviceWithFirebaseData_eq. Qed.

Lemma finish_event_obs env ev c w :
  let w' := finish_event env ev c w in
  let row := {| entry := c; created_at := clock w |} in
  let u := FirebaseFields (deviceImei ev) (clock w) false
             (or_else (main ev) "Unknown") (clock w) in
  clock w' = clock w
  /\ knownIMEIs w' = knownIMEIs w
  /\ api_calls (trace w') = api_calls (trace w)
  /\ http_requests (trace w') = http_requests (trace w)
  /\ log_writes (trace w') = log_writes (trace w) ++ [row]
  /\ upserts (trace w') = upserts (trace w) ++ [u]
  /\ api_correlation_logs w' =
       api_correlation_logs w ++ (if insert_ok env then [row] else [])
  /\ device_inventory w' =
       (if upsert_ok env then apply_upsert u (device_inventory w)
        else device_inventory w).
Proof.
  unfold finish_event. rewrite logCorrelation_eq, updateDeviceWithFirebaseData_eq.
  destruct (insert_ok env), (upsert_ok env); observe; rewrite ?app_nil_r; done.
Qed.

(** ** The paths of [correlateExceptionEventDriven] *)

(** Enter the handler for an event with a device id and run the
    known-set check, whose result is [E]. *)
Ltac enter_handler Ht E :=
  unfold correlateExceptionEventDriven; rewrite Ht; cbn [negb];
  unfold try_catch at 1, correlate_body; unfold bind at 1; rewrite E; cbn [negb].

(** Unknown device. *)
Lemma correlate_unknown_path env ev w :
  truthy (deviceImei ev) = true ->
  answer true (isIMEIKnown env (deviceImei ev) w) = false ->
  exists w1 d w2 a w3 w4 us,
    isIMEIKnown env (deviceImei ev) w = (Returned false, w1)
    /\ refresh_frame w w1
    /\ (deviceImei ev ∉ knownIMEIs w1)
    /\ getDeviceByImei env (deviceImei ev) w1 = (Returned d, w2)
    /\ api_step [MGetDeviceByImei (deviceImei ev)] w1 w2
    /\ getDeviceActivityStatus env (deviceImei ev) w2 = (Returned a, w3)
    /\ api_step [MGetDeviceActivityStatus (deviceImei ev);
                 MGetDeviceLocations (deviceImei ev) 5] w2 w3
    /\ correlateExceptionEventDriven env ev w
       = (Returned tt, finish_event env ev (discovery_entry ev d a) w4)
    /\ clock w4 = clock w3
    /\ log_writes (trace w4) = log_writes (trace w3)
    /\ api_calls (trace w4) = api_calls (trace w3)
         ++ match d with
            | Some dev => [MGetDeviceActivityStatus (dev_imei dev);
                           MGetDeviceLocations (dev_imei dev) 5]
            | None => []
            end
    /\ upserts (trace w4) = upserts (trace w3) ++ us
    /\ forallb score_ok us = true
    /\ knownIMEIs w4 = match d with
                       | Some _ => {[deviceImei ev]} ∪ knownIMEIs w3
                       | None => knownIMEIs w3
                       end.
Proof.
  intros Ht Hk.
  destruct (isIMEIKnown_spec env (deviceImei ev) w) as (b & w1 & E1 & Hb & F1).
  unfold answer in Hk. rewrite E1 in Hk. cbn in Hk. subst b.
  symmetry in Hb. apply bool_decide_eq_false in Hb.
  destruct (getDeviceByImei_spec env (deviceImei ev) w1) as (d & w2 & E2 & S2).
  destruct (getDeviceActivityStatus_spec env (deviceImei ev) w2) as (a & w3 & E3 & S3).
  exists w1, d, w2, a, w3.
  enough (exists w4 us,
    correlateExceptionEventDriven env ev w
      = (Returned tt, finish_event env ev (discovery_entry ev d a) w4)
    /\ clock w4 = clock w3
    /\ log_writes (trace w4) = log_writes (trace w3)
    /\ api_calls (trace w4) = api_calls (trace w3)
         ++ match d with
            | Some dev => [MGetDeviceActivityStatus (dev_imei dev);
                           MGetDeviceLocations (dev_imei dev) 5]
            | None => []
            end
    /\ upserts (trace w4) = upserts (trace w3) ++ us
    /\ forallb score_ok us = true
    /\ knownIMEIs w4 = match d with
                       | Some _ => {[deviceImei ev]} ∪ knownIMEIs w3
                       | None => knownIMEIs w3
                       end) as (w4 & us & H) by (exists w4, us; tauto).
  enter_handler Ht E1.
  unfold bind at 1, try_catch at 1. unfold bind at 1. rewrite E2.
  unfold bind at 1. rewrite E3.
  destruct d as [dev|].
  - unfold bind at 1.
    destruct (updateDeviceInventory_spec env dev w3)
      as (w4 & us & E4 & Uc & Uk & Ur & Ul & Uw & Ua & Uu & Us).
    rewrite E4. unfold bind at 1, modify, ret. unfold bind at 1.
    rewrite logCorrelation_ret, updateDeviceWithFirebaseData_ret.
    eexists _, us. split; [reflexivity|].
    cbn. repeat split; try done. congruence.
  - unfold ret, bind at 1.
    rewrite logCorrelation_ret, updateDeviceWithFirebaseData_ret.
    eexists _, []. split; [reflexivity|].
    cbn. rewrite !app_nil_r. done.
Qed.

(** Known device, by the gate. *)
Lemma correlate_known_path env ev w :
  truthy (deviceImei ev) = true ->
  answer false (isIMEIKnown env (deviceImei ev) w) = true ->
  exists w1,
    isIMEIKnown env (deviceImei ev) w = (Returned true, w1)
    /\ refresh_frame w w1
    /\ if isCriticalException ev
       then exists d w2 a w3,
         getDeviceByImei env (deviceImei ev) w1 = (Returned d, w2)
         /\ api_step [MGetDeviceByImei (deviceImei ev)] w1 w2
         /\ getDeviceActivityStatus env (deviceImei ev) w2 = (Returned a, w3)
         /\ api_step [MGetDeviceActivityStatus (deviceImei ev);
                      MGetDeviceLocations (deviceImei ev) 5] w2 w3
         /\ correlateExceptionEventDriven env ev w
            = (Returned tt, finish_event env ev (critical_entry (clock w3) ev d a) w3)
       else correlateExceptionEventDriven env ev w
            = (Returned tt, finish_event env ev (noncritical_entry ev) w1).
Proof.
  intros Ht Hk.
  destruct (isIMEIKnown_spec env (deviceImei ev) w) as (b & w1 & E1 & _ & F1).
  unfold answer in Hk. rewrite E1 in Hk. cbn in Hk. subst b.
  exists w1. split; [done|]. split; [done|].
  destruct (isCriticalException ev) eqn:Hc.
  - destruct (getDeviceByImei_spec env (deviceImei ev) w1) as (d & w2 & E2 & S2).
    destruct (getDeviceActivityStatus_spec env (deviceImei ev) w2) as (a & w3 & E3 & S3).
    exists d, w2, a, w3. repeat (split; [done|]).
    enter_handler Ht E1. rewrite Hc.
    unfold bind at 1, try_catch at 1. unfold bind at 1. rewrite E2.
    unfold bind at 1. rewrite E3. unfold bind at 1, gets, ret. unfold bind at 1.
    by rewrite logCorrelation_ret, updateDeviceWithFirebaseData_ret.
  - enter_handler Ht E1. rewrite Hc.
    unfold bind at 1, ret. unfold bind at 1.
    by rewrite logCorrelation_ret, updateDeviceWithFirebaseData_ret.
Qed.

(** On every path the handler returns, logs [api_status = "success"] if
    the event names a device, and sends only upserts whose health score is
    within bounds. *)
Lemma correlate_total env ev w :
  exists w' us,
    correlateExceptionEventDriven env ev w = (Returned tt, w')
    /\ upserts (trace w') = upserts (trace w) ++ us
    /\ forallb score_ok us = true
    /\ statuses (trace w')
       = statuses (trace w) ++ (if truthy (deviceImei ev) then ["success"] else []).
Proof.
  destruct (truthy (deviceImei ev)) eqn:Ht.
  2:{ unfold correlateExceptionEventDriven. rewrite Ht. cbn.
      exists w, []. by rewrite !app_nil_r. }
  destruct (answer_bool_cases (isIMEIKnown env (deviceImei ev) w)) as [Hk|[Hk|[e He]]].
  - destruct (correlate_unknown_path env ev w Ht Hk)
      as (w1 & d & w2 & a & w3 & w4 & us & E1 & F1 & _ & E2 & S2 & E3 & S3 & E
          & Hc & Hw & Ha & Hu & Hs & _).
    destruct (finish_event_obs env ev (discovery_entry ev d a) w4)
      as (_ & _ & _ & _ & Gw & Gu & _).
    eexists _, _. split; [exact E|]. unfold statuses. rewrite Gu, Hu, Gw, Hw.
    destruct S3 as ((_ & _ & _ & _ & _ & -> & ->) & _).
    destruct S2 as ((_ & _ & _ & _ & _ & -> & ->) & _).
    destruct F1 as (_ & _ & _ & _ & _ & _ & -> & ->).
    rewrite <- app_assoc, fmap_app. split; [reflexivity|].
    rewrite forallb_app, Hs. split; reflexivity.
  - destruct (correlate_known_path env ev w Ht Hk) as (w1 & E1 & F1 & H).
    destruct F1 as (_ & _ & _ & _ & _ & _ & Fw & Fu).
    destruct (isCriticalException ev).
    + destruct H as (d & w2 & a & w3 & E2 & S2 & E3 & S3 & E).
      destruct (finish_event_obs env ev (critical_entry (clock w3) ev d a) w3)
        as (_ & _ & _ & _ & Gw & Gu & _).
      eexists _, _. split; [exact E|]. unfold statuses. rewrite Gu, Gw.
      destruct S3 as ((_ & _ & _ & _ & _ & -> & ->) & _).
      destruct S2 as ((_ & _ & _ & _ & _ & -> & ->) & _).
      rewrite Fu, Fw, fmap_app. repeat split.
    + destruct (finish_event_obs env ev (noncritical_entry ev) w1)
        as (_ & _ & _ & _ & Gw & Gu & _).
      eexists _, _. split; [exact H|]. unfold statuses.
      rewrite Gu, Gw, Fu, Fw, fmap_app. repeat split.
  - destruct (isIMEIKnown_spec env (deviceImei ev) w) as (b & w1 & E1 & _).
    rewrite E1 in He. discriminate.
Qed.

(** ** The claims about the correlator *)

(** A category the table calls critical passes the correlator's gate. *)
Lemma table_critical_passes_gate (ev : ExceptionLog) :
  spec_classify (main ev) = "critical" -> isCriticalException ev = true.
Proof.
  intros H%spec_classify_critical.
  unfold isCriticalException. cbv zeta. rewrite or_else_empty.
  apply orb_true_iff in H as [H|H]; [apply orb_true_iff in H as [H|H]|].
  - rewrite H. by rewrite !orb_true_r.
  - apply (includes_app_l _ "server" " down") in H. by rewrite H.
  - rewrite H. by rewrite !orb_true_r.
Qed.

(** C1, as the code has it: for an event with a device id and a device
    the known-set check accepts, the registry is skipped exactly when the
    correlator's own gate rejects the category.  If the gate rejects it
    (then the table does not call it critical either), the handler
    returns, makes no [apiService] call and sends no request, logs one
    entry with [api_status = "success"] (the code has no [no_call] status;
    the payload [cached_status] marks the skip) and
    [correlation_result = "confirmed"], and upserts the stream-side fields
    with [last_exception_type] the event's category, ["Unknown"] if that
    is empty; the row holds it when the store accepts the upsert.  If the
    gate accepts the category, whatever the table calls it, the handler
    looks up the device detail and the activity. *)
Theorem known_device_skips_registry_iff_gate_rejects
    (env : Env) (ev : ExceptionLog) (w : World) :
  truthy (deviceImei ev) = true ->
  answer false (isIMEIKnown env (deviceImei ev) w) = true ->
  let i := deviceImei ev in
  let row :=
    {| entry :=
         {| imei := i;
            correlation_type := "exception_triggered";
            firebase_exception_id := id ev;
            api_response := RCachedStatus "known_imei_non_critical";
            api_status := "success";
            correlation_result := "confirmed";
            notes := "Non-critical exception for known IMEI - no API call made (event-driven optimization)" |};
       created_at := clock w |} in
  let category := or_else (main ev) "Unknown" in
  let w' := snd (correlateExceptionEventDriven env ev w) in
  (isCriticalException ev = false ->
   spec_classify (main ev) <> "critical"
   /\ fst (correlateExceptionEventDriven env ev w) = Returned tt
   /\ api_calls (trace w') = api_calls (trace w)
   /\ http_requests (trace w') = http_requests (trace w)
   /\ log_writes (trace w') = log_writes (trace w) ++ [row]
   /\ api_correlation_logs w' =
        api_correlation_logs w ++ (if insert_ok env then [row] else [])
   /\ upserts (trace w') = upserts (trace w)
        ++ [FirebaseFields i (clock w) false category (clock w)]
   /\ (if upsert_ok env
       then (device_inventory w' !! i) ≫= last_exception_type = Some category
       else device_inventory w' = device_inventory w))
  /\ (isCriticalException ev = true ->
      api_calls (trace w') = api_calls (trace w)
        ++ [MGetDeviceByImei i; MGetDeviceActivityStatus i; MGetDeviceLocations i 5]).
Proof.
  intros Ht Hk. cbv zeta.
  destruct (correlate_known_path env ev w Ht Hk) as (w1 & E1 & F1 & H).
  destruct F1 as (Fc & Fca & Fi & Fl & Fa & Fh & Fw & Fu).
  split; intros Hc; rewrite Hc in H.
  - split.
    { intros Htable%table_critical_passes_gate. congruence. }
    rewrite H. cbn [fst snd].
    destruct (finish_event_obs env ev (noncritical_entry ev) w1)
      as (Gc & Gk & Ga & Gh & Gw & Gu & Gl & Gi).
    rewrite Ga, Gh, Gw, Gu, Gl, Gi, Fc, Fi, Fl, Fa, Fh, Fw, Fu.
    repeat (split; [reflexivity|]).
    destruct (upsert_ok env); [|reflexivity].
    unfold apply_upsert. cbn [upsert_key]. by rewrite lookup_insert_eq.
  - destruct H as (d & w2 & a & w3 & E2 & (_ & S2a) & E3 & (_ & S3a) & E).
    rewrite E. cbn [snd].
    destruct (finish_event_obs env ev (critical_entry (clock w3) ev d a) w3)
      as (_ & _ & Ga & _).
    rewrite Ga, S3a, S2a, Fa. by rewrite <- app_assoc.
Qed.

Lemma known_device_skips_registry_iff_gate_rejects_witness :
  api_calls (trace after_gps_retry) = []
  /\ http_requests (trace after_gps_retry) = []
  /\ (device_inventory after_gps_retry !! "Y") ≫= last_exception_type
     = Some "GPS retry".
Proof.
  destruct (known_device_skips_registry_iff_gate_rejects registry_up
              gps_retry_on_Y (world_at T0 ["Y"]))
    as [H _]; [reflexivity..|].
  destruct (H eq_refl) as (_ & _ & Ha & Hh & _ & _ & _ & Hi).
  split; [exact Ha|]. split; [exact Hh | exact Hi].
Defined.

(** C1 as stated fails twice, for the known device Y.  With the category
    ["GPS retry"], which the gate rejects, no call is made and the logged
    status is ["success"], not ["no_call"].  With ["Server retry"] and
    ["shutdown"], which the table calls warning and info, the gate accepts
    the category and the registry is asked for the device detail and the
    locations. *)
Lemma known_noncritical_event_success_status_and_gate_calls :
  answer false (isIMEIKnown registry_up "Y" (world_at T0 ["Y"])) = true
  /\ isCriticalException gps_retry_on_Y = false
  /\ api_calls (trace after_gps_retry) = []
  /\ statuses (trace after_gps_retry) = ["success"]
  /\ statuses (trace after_gps_retry) <> ["no_call"]
  /\ spec_classify (main server_retry_on_Y) = "warning"
  /\ api_calls (trace after_server_retry)
     = [MGetDeviceByImei "Y"; MGetDeviceActivityStatus "Y"; MGetDeviceLocations "Y" 5]
  /\ http_requests (trace after_server_retry) = [GetDevice "Y"; GetLocations "Y" 5]
  /\ results (trace after_server_retry) = ["confirmed"]
  /\ spec_classify (main shutdown_on_Y) = "info"
  /\ http_requests (trace after_shutdown) = [GetDevice "Y"; GetLocations "Y" 5].
Proof. vm_compute. repeat split; discriminate. Qed.

(** C2, as the code has it: for an event with a device id that the
    known-set check rejects, the handler returns after exactly one
    device-detail lookup and one activity lookup on the API service, and
    one more activity lookup (by the inventory update) when the detail
    lookup returned a record; the logged result is ["confirmed"] and the
    device id is in the known set when a record came back, and the result
    is ["no_data"] and the id stays out when nothing came back (a failed
    request comes back as nothing, see [getDeviceByImei_failure]). *)
Theorem unknown_device_consults_registry (env : Env) (ev : ExceptionLog) (w : World) :
  truthy (deviceImei ev) = true ->
  answer true (isIMEIKnown env (deviceImei ev) w) = false ->
  let i := deviceImei ev in
  let w1 := snd (isIMEIKnown env i w) in
  let found := answer None (getDeviceByImei env i w1) in
  let w' := snd (correlateExceptionEventDriven env ev w) in
  fst (correlateExceptionEventDriven env ev w) = Returned tt
  /\ api_calls (trace w') = api_calls (trace w)
       ++ [MGetDeviceByImei i; MGetDeviceActivityStatus i; MGetDeviceLocations i 5]
       ++ match found with
          | Some d => [MGetDeviceActivityStatus (dev_imei d);
                       MGetDeviceLocations (dev_imei d) 5]
          | None => []
          end
  /\ detail_lookups (trace w') = detail_lookups (trace w) ++ [i]
  /\ results (trace w') = results (trace w)
       ++ [match found with Some _ => "confirmed" | None => "no_data" end]
  /\ match found with
     | Some _ => i ∈ knownIMEIs w'
     | None => i ∉ knownIMEIs w'
     end.
Proof.
  intros Ht Hk. cbv zeta.
  destruct (correlate_unknown_path env ev w Ht Hk)
    as (w1 & d & w2 & a & w3 & w4 & us & E1 & F1 & Hn & E2 & S2 & E3 & S3 & E
        & Hc & Hw & Ha & Hu & Hs & Hkn).
  rewrite E, E1. cbn [fst snd]. rewrite (answer_returned _ _ _ _ E2).
  destruct (finish_event_obs env ev (discovery_entry ev d a) w4)
    as (Gc & Gk & Ga & Gh & Gw & Gu & Gl & Gi).
  destruct S2 as ((_ & S2k & _ & _ & _ & S2w & _) & S2a).
  destruct S3 as ((_ & S3k & _ & _ & _ & S3w & _) & S3a).
  destruct F1 as (_ & _ & _ & _ & F1a & _ & F1w & _).
  assert (api_calls (trace (finish_event env ev (discovery_entry ev d a) w4))
          = api_calls (trace w)
            ++ [MGetDeviceByImei (deviceImei ev);
                MGetDeviceActivityStatus (deviceImei ev);
                MGetDeviceLocations (deviceImei ev) 5]
            ++ match d with
               | Some dev => [MGetDeviceActivityStatus (dev_imei dev);
                              MGetDeviceLocations (dev_imei dev) 5]
               | None => []
               end) as Hcalls.
  { rewrite Ga, Ha, S3a, S2a, F1a. by rewrite <- !app_assoc. }
  split; [done|]. split; [exact Hcalls|]. split; [|split].
  - unfold detail_lookups. rewrite Hcalls, !omap_app.
    destruct d; cbn; by rewrite ?app_nil_r.
  - unfold results. rewrite Gw, Hw, S3w, S2w, F1w, fmap_app. cbn.
    by destruct d.
  - rewrite Gk, Hkn. destruct d.
    + apply elem_of_union. left. by apply elem_of_singleton.
    + by rewrite S3k, S2k.
Qed.

Lemma unknown_device_consults_registry_witness :
  detail_lookups (trace after_discovery) = ["X"]
  /\ results (trace after_discovery) = ["confirmed"]
  /\ "X" ∈ knownIMEIs after_discovery.
Proof.
  destruct (unknown_device_consults_registry registry_up
              server_down_on_X (world_at T0 []))
    as (_ & _ & Hd & Hr & Hk); [reflexivity..|].
  split; [exact Hd|]. split; [exact Hr | exact Hk].
Defined.

(** C2 as stated fails: for the unknown device X and an empty cache the
    handler sends two requests to the registry, the device detail and the
    locations, behind three [apiService] calls. *)
Lemma unknown_device_sends_two_requests :
  answer true (isIMEIKnown registry_empty "X" (world_at T0 [])) = false
  /\ http_requests (trace after_failed_discovery)
     = [GetDevice "X"; GetLocations "X" 5]
  /\ api_calls (trace after_failed_discovery)
     = [MGetDeviceByImei "X"; MGetDeviceActivityStatus "X"; MGetDeviceLocations "X" 5].
Proof. vm_compute. repeat split. Qed.

(** C3: for an event with a device id, a known device and a category the
    gate accepts, the logged result is [determineCorrelationResult] of
    what the device-detail and activity lookups returned; it is
    ["no_data"] when no record came back, and when a record came back and
    the category includes "server down", "device" or "connection" it is
    ["conflicted"] if the API shows the device active and ["confirmed"] if
    not. *)
Theorem known_critical_conflict_rule (env : Env) (ev : ExceptionLog) (w : World) :
  truthy (deviceImei ev) = true ->
  answer false (isIMEIKnown env (deviceImei ev) w) = true ->
  isCriticalException ev = true ->
  let i := deviceImei ev in
  let category := toLowerCase (main ev) in
  let w1 := snd (isIMEIKnown env i w) in
  let lookup := getDeviceByImei env i w1 in
  let found := answer None lookup in
  let activity := answer idle_activity (getDeviceActivityStatus env i (snd lookup)) in
  let w' := snd (correlateExceptionEventDriven env ev w) in
  let result := determineCorrelationResult ev found activity in
  results (trace w') = results (trace w) ++ [result]
  /\ (found = None -> result = "no_data")
  /\ (is_Some found ->
      includes category "server down" || includes category "device"
        || includes category "connection" = true ->
      result = if isActive activity then "conflicted" else "confirmed").
Proof.
  intros Ht Hk Hc. cbv zeta.
  destruct (correlate_known_path env ev w Ht Hk) as (w1 & E1 & F1 & H).
  rewrite Hc in H. destruct H as (d & w2 & a & w3 & E2 & S2 & E3 & S3 & E).
  rewrite E, E1. cbn [fst snd]. rewrite E2. cbn [snd].
  rewrite E3. unfold answer. cbn [fst].
  destruct (finish_event_obs env ev (critical_entry (clock w3) ev d a) w3)
    as (Gc & Gk & Ga & Gh & Gw & Gu & Gl & Gi).
  destruct S2 as ((_ & _ & _ & _ & _ & S2w & _) & _).
  destruct S3 as ((_ & _ & _ & _ & _ & S3w & _) & _).
  destruct F1 as (_ & _ & _ & _ & _ & _ & F1w & _).
  split; [|split].
  - unfold results. rewrite Gw, S3w, S2w, F1w, fmap_app. reflexivity.
  - by intros ->.
  - intros [dev ->] Hcat. unfold determineCorrelationResult. cbv zeta.
    rewrite or_else_empty.
    apply orb_true_iff in Hcat as [Hcat|Hcat]; [apply orb_true_iff in Hcat as [Hcat|Hcat]|].
    + rewrite (includes_app_l _ "server" " down" Hcat),
              (includes_app_r _ "server " "down" Hcat). reflexivity.
    + rewrite Hcat. cbn [orb].
      destruct (_ && _), (isActive a); reflexivity.
    + rewrite Hcat, orb_true_r.
      destruct (_ && _), (isActive a); reflexivity.
Qed.

Lemma known_critical_conflict_rule_witness :
  results (trace after_conflict) = ["conflicted"].
Proof.
  destruct (known_critical_conflict_rule registry_up
              server_down_on_Z (world_at T0 ["Z"]))
    as (Hr & _ & Hrule); [reflexivity..|].
  unfold after_conflict. rewrite Hr.
  rewrite Hrule; [reflexivity | by eexists | reflexivity].
Defined.

(** C6: both scorers return a value within [0, 100], and every upsert
    the correlator sends while handling an event carries a health score
    within [0, 100]. *)
Theorem health_scores_within_bounds
    (now : Z) (exceptionLogs : list ExceptionLog) (ignitionLogs : list IgnitionLog)
    (isActive : bool) (locationCount : Z)
    (env : Env) (ev : ExceptionLog) (w : World) :
  0 <= OverviewTab.calculateHealthScore now exceptionLogs ignitionLogs <= 100
  /\ 0 <= calculateHealthScore isActive locationCount <= 100
  /\ exists written,
       upserts (trace (snd (correlateExceptionEventDriven env ev w)))
         = upserts (trace w) ++ written
       /\ forallb score_ok written = true.
Proof.
  split; [apply overview_score_clamped|]. split.
  - pose proof (api_score_values isActive locationCount). lia.
  - destruct (correlate_total env ev w) as (w' & us & E & Hu & Hs & _).
    rewrite E. eauto.
Qed.

(** C8, at a failing input: every request times out.  The handler
    returns and the entry is written with [correlation_result = "no_data"],
    but the API service has turned the timeout into "no record", so the
    entry has [api_status = "success"] and notes without the error
    message, for an unknown device and for a known one alike. *)
Theorem registry_timeout_is_logged_as_success :
  fst timeout_on_unknown = Returned tt
  /\ http_requests (trace (snd timeout_on_unknown))
     = [GetDevice "X"; GetLocations "X" 5]
  /\ summary <$> api_correlation_logs (snd timeout_on_unknown)
     = [("success", "no_data", "New IMEI discovered - device not found in API")]
  /\ fst timeout_on_known = Returned tt
  /\ http_requests (trace (snd timeout_on_known))
     = [GetDevice "X"; GetLocations "X" 5]
  /\ summary <$> api_correlation_logs (snd timeout_on_known)
     = [("success", "no_data",
         "Firebase Exception: Server Down | API: Device not found or API unavailable")].
Proof. vm_compute. repeat split. Qed.

(** ** The snapshot handler *)

(** Every delivery logs once for each new document that names a device,
    whatever was delivered before: no event id is remembered. *)
Lemma correlate_each_log_count env logs w :
  fst (correlate_each env logs w) = Returned tt
  /\ length (log_writes (trace (snd (correlate_each env logs w))))
     = (length (log_writes (trace w))
        + length (filter (fun l => truthy (deviceImei l) = true) logs))%nat.
Proof.
  revert w. induction logs as [|l logs IH]; intros w.
  - split; [reflexivity|]. cbn. lia.
  - destruct (correlate_total env l w) as (w' & us & E & _ & _ & Hs).
    assert (correlate_each env (l :: logs) w = correlate_each env logs w') as ->.
    { cbn [correlate_each]. unfold bind at 1, try_catch. by rewrite E. }
    destruct (IH w') as [R L]. split; [exact R|]. rewrite L.
    apply (f_equal length) in Hs. unfold statuses in Hs.
    rewrite length_app, !length_fmap in Hs. rewrite Hs, filter_cons.
    destruct (truthy (deviceImei l)); case_decide; try done; cbn; lia.
Qed.

Lemma onSnapshot_log_count env snapshot w :
  length (log_writes (trace (snd (onSnapshot env snapshot w))))
  = (length (log_writes (trace w))
     + length (filter (fun l => truthy (deviceImei l) = true) (newLogs snapshot)))%nat.
Proof.
  unfold onSnapshot, bind, ret.
  destruct (correlate_each_log_count env (newLogs snapshot) w) as [R L].
  destruct (correlate_each env (newLogs snapshot) w) as [o w'].
  cbn in R. subst o. exact L.
Qed.

(** C9, at a failing input: the same one-document server snapshot is
    delivered twice, six minutes apart.  The second delivery correlates
    the event again: a second log entry with the same event id, and the
    two registry requests sent again. *)
Theorem redelivered_snapshot_is_correlated_again :
  event_ids first_delivery = ["e3"]
  /\ event_ids second_delivery = ["e3"; "e3"]
  /\ http_requests (trace first_delivery) = [GetDevice "Z"; GetLocations "Z" 5]
  /\ http_requests (trace second_delivery)
     = [GetDevice "Z"; GetLocations "Z" 5; GetDevice "Z"; GetLocations "Z" 5].
Proof. vm_compute. repeat split. Qed.

(** * Properties of the further code *)

(** ** The registry cache, continued *)

(** X1: when no fresh entry exists and the registry answers, the answer
    (a record or [null]) is returned and stored; any later lookup less
    than the TTL after the fetch, whatever the registry does then, returns
    the same answer without a request. *)
Theorem fetched_device_is_served_from_cache
    (env later : Env) (i : string) (w : World) (d : option Device) (t : Z) :
  answer true (isCacheValid ("device-" +:+ i) w) = false ->
  fetch_device env i = Body d ->
  t - clock w < CACHE_DURATION ->
  let w1 := snd (getDeviceByImei env i w) in
  let again := getDeviceByImei later i (with_clock t w1) in
  fst (getDeviceByImei env i w) = Returned d
  /\ http_requests (trace w1) = http_requests (trace w) ++ [GetDevice i]
  /\ fst again = Returned d
  /\ http_requests (trace (snd again)) = http_requests (trace w1).
Proof.
  intros Hv Hf Ht. cbv zeta.
  unfold answer, isCacheValid, gets in Hv. cbn in Hv.
  eassert (getDeviceByImei env i w = _) as ->.
  { unfold getDeviceByImei. run. rewrite Hv, Hf. reflexivity. }
  cbn [fst snd].
  eassert (getDeviceByImei later i _ = _) as ->.
  { unfold getDeviceByImei. run. rewrite lookup_insert_eq. cbn.
    rewrite bool_decide_eq_true_2 by exact Ht. reflexivity. }
  cbn [fst snd]. observe. cbn. rewrite lookup_insert_eq. cbn. done.
Qed.


Lemma fetched_device_is_served_from_cache_witness :
  fst (getDeviceByImei registry_down "X"
         (with_clock (T0 + 4 * 60 * 1000)
            (snd (getDeviceByImei registry_up "X" (world_at T0 [])))))
  = Returned (Some (tracker "X")).
Proof.
  destruct (fetched_device_is_served_from_cache registry_up registry_down "X"
              (world_at T0 []) (Some (tracker "X")) (T0 + 4 * 60 * 1000))
    as (_ & _ & H & _); [reflexivity | reflexivity | reflexivity | exact H].
Defined.

(** X2: when no fresh entry exists and the request fails, the lookup
    returns [null], leaves the cache as it was (a stale entry is neither
    served nor dropped, the failure is not remembered), and the next lookup
    sends the request again. *)
Theorem failed_lookup_leaves_cache (env : Env) (i : string) (w : World) (message : string) :
  answer true (isCacheValid ("device-" +:+ i) w) = false ->
  fetch_device env i = Fails message ->
  let w' := snd (getDeviceByImei env i w) in
  fst (getDeviceByImei env i w) = Returned None
  /\ cache w' = cache w
  /\ http_requests (trace w') = http_requests (trace w) ++ [GetDevice i]
  /\ http_requests (trace (snd (getDeviceByImei env i w')))
     = http_requests (trace w) ++ [GetDevice i; GetDevice i].
Proof.
  intros Hv Hf. cbv zeta.
  unfold answer, isCacheValid, gets in Hv. cbn in Hv.
  eassert (getDeviceByImei env i w = _) as ->.
  { unfold getDeviceByImei. run. rewrite Hv, Hf. reflexivity. }
  cbn [fst snd].
  eassert (getDeviceByImei env i _ = _) as ->.
  { unfold getDeviceByImei. run. rewrite Hv, Hf. reflexivity. }
  cbn [fst snd]. observe. done.
Qed.

Lemma failed_lookup_leaves_cache_witness :
  cache (snd (getDeviceByImei registry_down "X" stale_world)) = cache stale_world.
Proof.
  destruct (failed_lookup_leaves_cache registry_down "X" stale_world
              "timeout of 10000ms exceeded")
    as (_ & H & _); [reflexivity | reflexivity | exact H].
Defined.

(** X3: an entry whose age has reached the TTL (five minutes, inclusive)
    is not served: the request is sent, and the registry's answer is
    returned and replaces the entry, stamped with the current time. *)
Theorem expired_entry_is_replaced
    (env : Env) (i : string) (w : World) (old : CacheEntry) (d : option Device) :
  cache w !! ("device-" +:+ i) = Some old ->
  CACHE_DURATION <= clock w - timestamp old ->
  fetch_device env i = Body d ->
  let w' := snd (getDeviceByImei env i w) in
  fst (getDeviceByImei env i w) = Returned d
  /\ http_requests (trace w') = http_requests (trace w) ++ [GetDevice i]
  /\ cache w' !! ("device-" +:+ i) = Some {| data := PDevice d; timestamp := clock w |}.
Proof.
  intros Hc Ha Hf. cbv zeta.
  eassert (getDeviceByImei env i w = _) as ->.
  { unfold getDeviceByImei. run. rewrite Hc. cbn.
    rewrite bool_decide_eq_false_2 by lia. rewrite Hf. reflexivity. }
  cbn [fst snd]. observe. by rewrite lookup_insert_eq.
Qed.

Lemma expired_entry_is_replaced_witness :
  fst (getDeviceByImei registry_empty "X" stale_world) = Returned None.
Proof.
  destruct (expired_entry_is_replaced registry_empty "X" stale_world
              {| data := PDevice (Some (tracker "X")); timestamp := T0 - 10 * 60 * 1000 |}
              None)
    as (H & _); [reflexivity | vm_compute; discriminate | reflexivity | exact H].
Defined.

(** X4: after [clearCache] the next device lookup always sends a request,
    and returns the registry's answer, or [null] when the request fails. *)
Theorem lookup_after_clearCache_asks_registry (env : Env) (i : string) (w : World) :
  let w1 := snd (clearCache w) in
  let w' := snd (getDeviceByImei env i w1) in
  fst (clearCache w) = Returned tt
  /\ http_requests (trace w') = http_requests (trace w) ++ [GetDevice i]
  /\ fst (getDeviceByImei env i w1)
     = Returned match fetch_device env i with Body d => d | Fails _ => None end.
Proof.
  cbv zeta. unfold clearCache, modify. cbn [fst snd].
  eassert (getDeviceByImei env i _ = _) as ->.
  { unfold getDeviceByImei. run. rewrite lookup_empty. reflexivity. }
  destruct (fetch_device env i); cbn; observe; done.
Qed.

(** Activity status invariants *)
(** X25: a device-list response with [success = false] is treated as an
    empty list and cached as such: it is returned as [[]], and for the
    next five minutes the list stays empty without a request, whatever
    the registry would answer. *)
Theorem unsuccessful_list_response_is_cached_as_empty
    (env later : Env) (w : World) (listed : list Device) (t : Z) :
  answer true (isCacheValid "all-devices" w) = false ->
  fetch_devices env = Body (false, listed) ->
  t - clock w < CACHE_DURATION ->
  let w1 := snd (getAllDevices env w) in
  let again := getAllDevices later (with_clock t w1) in
  fst (getAllDevices env w) = Returned []
  /\ fst again = Returned []
  /\ http_requests (trace (snd again)) = http_requests (trace w) ++ [GetDevices].
Proof.
  intros Hv Hf Ht. cbv zeta.
  unfold answer, isCacheValid, gets in Hv. cbn in Hv.
  eassert (getAllDevices env w = _) as ->.
  { unfold getAllDevices. run. rewrite Hv, Hf. reflexivity. }
  cbn [fst snd].
  eassert (getAllDevices later _ = _) as ->.
  { unfold getAllDevices. run. rewrite lookup_insert_eq. cbn.
    rewrite bool_decide_eq_true_2 by exact Ht. reflexivity. }
  cbn [fst snd]. observe. cbn. rewrite lookup_insert_eq. cbn. done.
Qed.

Lemma unsuccessful_list_response_is_cached_as_empty_witness :
  fst (getAllDevices registry_up
         (with_clock (T0 + 60 * 1000) (snd (getAllDevices registry_refusing (world_at T0 [])))))
  = Returned [].
Proof.
  destruct (unsuccessful_list_response_is_cached_as_empty registry_refusing registry_up
              (world_at T0 []) [tracker "X"] (T0 + 60 * 1000))
    as (_ & H & _); [reflexivity | reflexivity | reflexivity | exact H].
Defined.

(** X26: a device lookup touches no cache slot but the device's own:
    the entries of other devices, of the locations and of the device list
    are as before. *)
Theorem device_lookup_touches_only_its_slot
    (env : Env) (i : string) (w : World) (key : string) :
  key <> "device-" +:+ i ->
  cache (snd (getDeviceByImei env i w)) !! key = cache w !! key.
Proof.
  intros Hne. unfold getDeviceByImei. run.
  destruct (cache w !! ("device-" +:+ i)) as [c|]; cbn; [case_bool_decide; cbn|];
    try destruct (fetch_device env i); cbn; try done;
    by rewrite lookup_insert_ne.
Qed.

Lemma device_lookup_touches_only_its_slot_witness :
  cache (snd (getDeviceByImei registry_up "X" stale_world)) !! "locations-X-5"
  = cache stale_world !! "locations-X-5".
Proof.
  apply (device_lookup_touches_only_its_slot registry_up "X" stale_world "locations-X-5").
  discriminate.
Defined.

(** ** Activity and the inventory update *)

Lemma isDeviceActive_first now l :
  isDeviceActive now l = true ->
  exists first rest t, l = first :: rest /\ loc_timestamp first = DateAt t
                       /\ now - t <= 30 * (1000 * 60).
Proof.
  destruct l as [|first rest]; [done|]. cbn.
  destruct (loc_timestamp first) as [|t|] eqn:E; [done| |done].
  intros H%bool_decide_eq_true. eauto 10.
Qed.

Lemma activity_of_locations_consistent now (l : list LocationData) :
  consistent_activity
    {| isActive := isDeviceActive now l;
       lastActivity := match l with [] => NoDate | first :: _ => loc_timestamp first end;
       locationCount := Z.of_nat (length l) |}.
Proof.
  unfold consistent_activity. cbn. split; [lia|]. split.
  - intros (first & rest & t & -> & E & _)%isDeviceActive_first. cbn.
    rewrite E. split; [lia | by eexists].
  - destruct l; [done | cbn; lia].
Qed.

Lemma getDeviceActivityStatus_consistent env i w :
  exists a w', getDeviceActivityStatus env i w = (Returned a, w')
    /\ api_step [MGetDeviceActivityStatus i; MGetDeviceLocations i 5] w w'
    /\ consistent_activity a.
Proof.
  destruct (getDeviceActivityStatus_spec env i w) as (a & w' & E & S).
  exists a, w'. split; [exact E|]. split; [exact S|].
  revert E. unfold getDeviceActivityStatus. unfold bind at 1, emit, modify. cbn.
  unfold try_catch, bind at 1.
  destruct (getDeviceLocations_spec env i 5
    (with_trace (trace w ++ [ApiInvoke (MGetDeviceActivityStatus i)]) w))
    as (l & w1 & E1 & _). rewrite E1. run.
  intros [= <- <-]. apply activity_of_locations_consistent.
Qed.

(** X5: [getDeviceActivityStatus] always returns, and its status is
    consistent: the location count is not negative, an active status has at
    least one location and a last-activity string that is a date, and a
    status with no location is inactive with no last-activity string. *)
Theorem activity_status_is_consistent (env : Env) (i : string) (w : World) :
  let a := answer idle_activity (getDeviceActivityStatus env i w) in
  fst (getDeviceActivityStatus env i w) = Returned a
  /\ 0 <= locationCount a
  /\ (isActive a = false \/ (1 <= locationCount a /\ exists t, lastActivity a = DateAt t))
  /\ (0 < locationCount a \/ (isActive a = false /\ lastActivity a = NoDate)).
Proof.
  cbv zeta.
  destruct (getDeviceActivityStatus_consistent env i w) as (a & w' & E & _ & H0 & H1 & H2).
  rewrite (answer_returned _ _ _ _ E), E. split; [done|]. split; [done|]. split.
  - destruct (isActive a); [right; by apply H1 | by left].
  - destruct (decide (locationCount a = 0)) as [Hz|Hz]; [right; by apply H2 | left; lia].
Qed.


(** Values of the API-activity score. *)
Lemma api_score_of_consistent (a : ActivityStatus) :
  consistent_activity a ->
  let s := calculateHealthScore (isActive a) (locationCount a) in
  s ∈ [20; 35; 50; 85; 100] /\ (isActive a = bool_decide (70 <= s)).
Proof.
  intros (H0 & H1 & H2). cbv zeta. unfold calculateHealthScore.
  destruct (isActive a) eqn:Ea; cbn [negb].
  - destruct (H1 eq_refl) as [Hc _].
    destruct (Z.eqb_spec (locationCount a) 0); [lia|].
    destruct (Z.ltb_spec (locationCount a) 3); cbn; split; try done;
      apply list_elem_of_In; cbn; tauto.
  - destruct (Z.eqb_spec (locationCount a) 0);
      [|destruct (Z.ltb_spec (locationCount a) 3)]; cbn; split; try done;
      apply list_elem_of_In; cbn; tauto.
Qed.

(** X6: [updateDeviceInventory] always returns.  When the last-activity
    string of the activity it fetched is not a date, the conversion to an
    ISO string throws, the error is caught and no upsert is sent.
    Otherwise it sends exactly one upsert, for the device's imei, carrying
    the fetched activity flag and location count; the health score it
    carries is their API-activity score, one of 20, 35, 50, 85, 100 (70,
    active without locations, cannot occur), and it is at least 70 exactly
    when the device is written as active. *)
Theorem inventory_update_writes_one_of_five_scores (env : Env) (d : Device) (w : World) :
  let a := answer idle_activity (getDeviceActivityStatus env (dev_imei d) w) in
  let w' := snd (updateDeviceInventory env d w) in
  fst (updateDeviceInventory env d w) = Returned tt
  /\ match lastActivity a with
     | InvalidDate => upserts (trace w') = upserts (trace w)
     | _ =>
         exists name status seen score updated,
           upserts (trace w') = upserts (trace w)
             ++ [ApiFields (dev_imei d) name status seen
                   (isActive a) (locationCount a) score updated]
           /\ score = calculateHealthScore (isActive a) (locationCount a)
           /\ score ∈ [20; 35; 50; 85; 100]
           /\ isActive a = bool_decide (70 <= score)
     end.
Proof.
  cbv zeta.
  destruct (getDeviceActivityStatus_consistent env (dev_imei d) w)
    as (a & w1 & E & ((Fc & Fk & Fr & Fi & Fl & Fw & Fu) & A) & Hcons).
  destruct (api_score_of_consistent a Hcons) as [Hin Hact].
  rewrite (answer_returned _ _ _ _ E).
  eassert (updateDeviceInventory env d w = _) as ->.
  { unfold updateDeviceInventory, try_catch, bind at 1. rewrite E.
    unfold upsertInventory, toISOString_or_null. run. reflexivity. }
  destruct (lastActivity a) as [|t|]; cbn [fst snd].
  3:{ split; [done | exact Fu]. }
  all: destruct (upsert_ok env); cbn [fst snd]; (split; [done|]);
    eexists _, _, _, _, _; observe; rewrite Fu; repeat split; done.
Qed.

(** With a location sample whose timestamp is not a date, the update
    asks for the activity and sends nothing; with a dated sample it sends
    the API-side record. *)
Example unreadable_timestamp_sends_no_upsert :
  upserts (trace (snd (updateDeviceInventory registry_garbled (tracker "X") (world_at T0 []))))
  = []
  /\ api_calls (trace (snd (updateDeviceInventory registry_garbled (tracker "X")
                             (world_at T0 []))))
     = [MGetDeviceActivityStatus "X"; MGetDeviceLocations "X" 5]
  /\ upserts (trace (snd (updateDeviceInventory registry_up (tracker "X") (world_at T0 []))))
     = [ApiFields "X" (Some "Truck") "online" (Some (T0 - 60 * 1000)) true 1 85 T0].
Proof. vm_compute. repeat split. Qed.

(** Within the refresh interval the known-set check touches nothing. *)
Lemma isIMEIKnown_within_interval env i w :
  clock w - lastIMEIRefresh w < IMEI_REFRESH_INTERVAL ->
  isIMEIKnown env i w = (Returned (bool_decide (i ∈ knownIMEIs w)), w).
Proof.
  intros H. unfold isIMEIKnown, refreshKnownIMEIs. run.
  by rewrite bool_decide_eq_true_2.
Qed.

(** X8: when the refresh is due (an hour or more since the last one), the
    known-set check sends one select; if it succeeds the known set becomes
    exactly the imeis of the inventory table and the refresh time becomes
    now; if it fails the set and the refresh time stay, so the next check
    selects again.  The answer is membership in the resulting set. *)
Theorem due_refresh_reloads_known_set (env : Env) (i : string) (w : World) :
  IMEI_REFRESH_INTERVAL <= clock w - lastIMEIRefresh w ->
  let w' := snd (isIMEIKnown env i w) in
  trace w' = trace w ++ [DbSelectImeis]
  /\ knownIMEIs w' = (if select_ok env then dom (device_inventory w) else knownIMEIs w)
  /\ lastIMEIRefresh w' = (if select_ok env then clock w else lastIMEIRefresh w)
  /\ fst (isIMEIKnown env i w) = Returned (bool_decide (i ∈ knownIMEIs w')).
Proof.
  intros H. cbv zeta.
  eassert (isIMEIKnown env i w = _) as ->.
  { unfold isIMEIKnown, refreshKnownIMEIs. run.
    rewrite bool_decide_eq_false_2 by lia. reflexivity. }
  destruct (select_ok env); cbn; done.
Qed.

Lemma due_refresh_reloads_known_set_witness :
  knownIMEIs (snd (isIMEIKnown registry_up "Y"
                     (with_clock (T0 + 60 * 60 * 1000) (world_at T0 ["Y"])))) = ∅.
Proof.
  destruct (due_refresh_reloads_known_set registry_up "Y"
              (with_clock (T0 + 60 * 60 * 1000) (world_at T0 ["Y"])))
    as (_ & H & _); [vm_compute; discriminate|].
  rewrite H. cbn. apply dom_empty_L.
Defined.




(** ** The correlator, continued *)

Lemma correlate_logs_one_entry env ev w :
  truthy (deviceImei ev) = true ->
  exists c w0 w',
    correlateExceptionEventDriven env ev w = (Returned tt, w')
    /\ w' = finish_event env ev c w0
    /\ clock w0 = clock w
    /\ log_writes (trace w0) = log_writes (trace w)
    /\ imei c = deviceImei ev
    /\ firebase_exception_id c = id ev
    /\ correlation_type c = "exception_triggered"
    /\ api_status c = "success"
    /\ correlation_result c ∈ ["confirmed"; "conflicted"; "no_data"]
    /\ (correlation_result c = "conflicted" ->
        answer false (isIMEIKnown env (deviceImei ev) w) = true
        /\ isCriticalException ev = true).
Proof.
  intros Ht.
  destruct (answer_bool_cases (isIMEIKnown env (deviceImei ev) w)) as [Hk|[Hk|[e He]]].
  - destruct (correlate_unknown_path env ev w Ht Hk)
      as (w1 & d & w2 & a & w3 & w4 & us & E1 & F1 & _ & E2 & S2 & E3 & S3 & E
          & Hc & Hw & Ha & Hu & Hs & _).
    destruct S3 as ((S3c & _ & _ & _ & _ & S3w & _) & _).
    destruct S2 as ((S2c & _ & _ & _ & _ & S2w & _) & _).
    destruct F1 as (F1c & _ & _ & _ & _ & _ & F1w & _).
    exists (discovery_entry ev d a), w4, (finish_event env ev (discovery_entry ev d a) w4).
    repeat split; try done; try congruence.
    + destruct d; cbn; apply list_elem_of_In; cbn; tauto.
    + destruct d; cbn; discriminate.
    + destruct d; cbn; discriminate.
  - destruct (correlate_known_path env ev w Ht Hk) as (w1 & E1 & F1 & H).
    destruct F1 as (F1c & _ & _ & _ & _ & _ & F1w & _).
    destruct (isCriticalException ev) eqn:Hcrit.
    + destruct H as (d & w2 & a & w3 & E2 & S2 & E3 & S3 & E).
      destruct S3 as ((S3c & _ & _ & _ & _ & S3w & _) & _).
      destruct S2 as ((S2c & _ & _ & _ & _ & S2w & _) & _).
      exists (critical_entry (clock w3) ev d a), w3,
             (finish_event env ev (critical_entry (clock w3) ev d a) w3).
      repeat split; try done; try congruence.
      cbn. unfold determineCorrelationResult.
      destruct d; [|apply list_elem_of_In; cbn; tauto].
      cbv zeta. destruct (_ && _); [|destruct (_ || _)];
        destruct (isActive a); cbn; apply list_elem_of_In; cbn; tauto.
    + exists (noncritical_entry ev), w1, (finish_event env ev (noncritical_entry ev) w1).
      repeat split; try done; try congruence.
      cbn. apply list_elem_of_In; cbn; tauto.
  - destruct (isIMEIKnown_spec env (deviceImei ev) w) as (b & w1 & E1 & _).
    rewrite E1 in He. discriminate.
Qed.

(** X9: every event that names a device is logged exactly once, whatever
    path the handler takes: the entry carries the device id, the event id
    and the type [exception_triggered], is stamped with the current time,
    and its result is one of confirmed, conflicted, no_data. *)
Theorem every_event_is_logged_once (env : Env) (ev : ExceptionLog) (w : World) :
  truthy (deviceImei ev) = true ->
  let w' := snd (correlateExceptionEventDriven env ev w) in
  exists c,
    log_writes (trace w') = log_writes (trace w) ++ [{| entry := c; created_at := clock w |}]
    /\ imei c = deviceImei ev
    /\ firebase_exception_id c = id ev
    /\ correlation_type c = "exception_triggered"
    /\ correlation_result c ∈ ["confirmed"; "conflicted"; "no_data"].
Proof.
  intros Ht. cbv zeta.
  destruct (correlate_logs_one_entry env ev w Ht)
    as (c & w0 & w' & E & -> & Hc & Hw & Hi & Hid & Hty & _ & Hr & _).
  rewrite E. cbn [snd]. exists c.
  destruct (finish_event_obs env ev c w0) as (_ & _ & _ & _ & Gw & _).
  rewrite Gw, Hw, Hc. done.
Qed.

Lemma every_event_is_logged_once_witness :
  (fun l => firebase_exception_id (entry l)) <$> log_writes (trace after_gps_retry)
  = ["e2"].
Proof.
  destruct (every_event_is_logged_once registry_up gps_retry_on_Y (world_at T0 ["Y"]))
    as (c & Hw & _ & Hid & _); [reflexivity|].
  unfold after_gps_retry. rewrite Hw. cbn. by rewrite Hid.
Defined.

(** X10: the handler logs the result [conflicted] only for a device the
    known-set check accepts and an event the criticality gate accepts; a
    newly discovered device is never reported as conflicted. *)
Theorem conflict_needs_known_device_and_critical_event
    (env : Env) (ev : ExceptionLog) (w : World) :
  truthy (deviceImei ev) = true ->
  "conflicted" ∈ drop (length (results (trace w)))
                      (results (trace (snd (correlateExceptionEventDriven env ev w)))) ->
  answer false (isIMEIKnown env (deviceImei ev) w) = true
  /\ isCriticalException ev = true.
Proof.
  intros Ht.
  destruct (correlate_logs_one_entry env ev w Ht)
    as (c & w0 & w' & E & -> & Hc & Hw & Hi & Hid & Hty & _ & Hr & Hconf).
  rewrite E. cbn [snd].
  destruct (finish_event_obs env ev c w0) as (_ & _ & _ & _ & Gw & _).
  unfold results. rewrite Gw, Hw, fmap_app, drop_app_length. cbn.
  intros Hin%list_elem_of_In. cbn in Hin. destruct Hin as [Hin|[]].
  by apply Hconf.
Qed.

Lemma conflict_needs_known_device_and_critical_event_witness :
  isCriticalException server_down_on_Z = true.
Proof.
  destruct (conflict_needs_known_device_and_critical_event registry_up
              server_down_on_Z (world_at T0 ["Z"])) as [_ H];
    [reflexivity | vm_compute; apply list_elem_of_here | exact H].
Defined.


(** X11: an event of a known device, critical or not, leaves the API-side
    columns of every inventory row as they were (name, status, last seen,
    active flag, location count, health score: the registry data fetched
    for a critical event is logged, not stored), and changes no row but the
    device's own. *)
Theorem known_device_event_keeps_api_columns
    (env : Env) (ev : ExceptionLog) (w : World) (k : string) :
  truthy (deviceImei ev) = true ->
  answer false (isIMEIKnown env (deviceImei ev) w) = true ->
  let w' := snd (correlateExceptionEventDriven env ev w) in
  api_columns (default empty_row (device_inventory w' !! k))
  = api_columns (default empty_row (device_inventory w !! k))
  /\ (k = deviceImei ev \/ device_inventory w' !! k = device_inventory w !! k).
Proof.
  intros Ht Hk. cbv zeta.
  destruct (correlate_known_path env ev w Ht Hk) as (w1 & E1 & F1 & H).
  destruct F1 as (F1c & _ & F1i & _).
  assert (exists c w0, correlateExceptionEventDriven env ev w
                       = (Returned tt, finish_event env ev c w0)
                       /\ device_inventory w0 = device_inventory w) as (c & w0 & E & Hi).
  { destruct (isCriticalException ev).
    - destruct H as (d & w2 & a & w3 & E2 & S2 & E3 & S3 & E).
      destruct S3 as ((_ & _ & _ & S3i & _) & _).
      destruct S2 as ((_ & _ & _ & S2i & _) & _).
      eexists _, _. split; [exact E|]. congruence.
    - eexists _, _. split; [exact H|]. done. }
  rewrite E. cbn [snd].
  destruct (finish_event_obs env ev c w0) as (_ & _ & _ & _ & _ & _ & _ & Gi).
  rewrite Gi, Hi. destruct (upsert_ok env); [|by split; [|right]].
  unfold apply_upsert. cbn [upsert_key].
  destruct (decide (k = deviceImei ev)) as [->|Hne].
  - rewrite lookup_insert_eq. split; [reflexivity | by left].
  - rewrite lookup_insert_ne by done. split; [reflexivity | by right].
Qed.

Lemma known_device_event_keeps_api_columns_witness :
  api_columns (default empty_row (device_inventory after_conflict !! "Z"))
  = api_columns empty_row.
Proof.
  destruct (known_device_event_keeps_api_columns registry_up server_down_on_Z
              (world_at T0 ["Z"]) "Z") as [H _]; [reflexivity | reflexivity | exact H].
Defined.

(** After an event that names a device, the store has a row for it when
    it accepts upserts. *)
Lemma event_creates_inventory_row env ev w :
  truthy (deviceImei ev) = true ->
  upsert_ok env = true ->
  deviceImei ev ∈ dom (device_inventory (snd (correlateExceptionEventDriven env ev w))).
Proof.
  intros Ht Hu.
  destruct (correlate_logs_one_entry env ev w Ht) as (c & w0 & w' & E & -> & _).
  rewrite E. cbn [snd].
  destruct (finish_event_obs env ev c w0) as (_ & _ & _ & _ & _ & _ & _ & Gi).
  rewrite Gi, Hu. unfold apply_upsert. cbn [upsert_key].
  apply elem_of_dom. rewrite lookup_insert_eq. by eexists.
Qed.

(** X12: when the store accepts upserts, any device that reported an
    exception has an inventory row afterwards, so it is known after the
    next successful refresh, whether or not the registry has a record of
    it. *)
Theorem reporting_device_is_known_after_refresh
    (env later : Env) (ev : ExceptionLog) (w : World) (t : Z) :
  truthy (deviceImei ev) = true ->
  upsert_ok env = true ->
  select_ok later = true ->
  let w' := snd (correlateExceptionEventDriven env ev w) in
  IMEI_REFRESH_INTERVAL <= t - lastIMEIRefresh w' ->
  fst (isIMEIKnown later (deviceImei ev) (with_clock t w')) = Returned true.
Proof.
  intros Ht Hu Hs w' Hdue.
  pose proof (event_creates_inventory_row env ev w Ht Hu) as Hrow. fold w' in Hrow.
  unfold isIMEIKnown, refreshKnownIMEIs. run.
  rewrite bool_decide_eq_false_2 by lia. rewrite Hs. cbn.
  by rewrite bool_decide_eq_true_2.
Qed.

Lemma reporting_device_is_known_after_refresh_witness :
  fst (isIMEIKnown registry_empty "X"
         (with_clock (T0 + 60 * 60 * 1000) after_failed_discovery)) = Returned true.
Proof.
  apply (reporting_device_is_known_after_refresh registry_empty registry_empty
           server_down_on_X (world_at T0 []) (T0 + 60 * 60 * 1000));
    [reflexivity | reflexivity | reflexivity | vm_compute; discriminate].
Defined.


Lemma logCorrelation_obs env c w :
  let w' := snd (logCorrelation env c w) in
  clock w' = clock w
  /\ knownIMEIs w' = knownIMEIs w
  /\ lastIMEIRefresh w' = lastIMEIRefresh w
  /\ log_writes (trace w') = log_writes (trace w) ++ [{| entry := c; created_at := clock w |}].
Proof. rewrite logCorrelation_eq. destruct (insert_ok env); observe; done. Qed.

Lemma manualDeviceCheck_path env i w :
  exists d w1 a w2 w',
    getDeviceByImei env i w = (Returned d, w1)
    /\ api_step [MGetDeviceByImei i] w w1
    /\ getDeviceActivityStatus env i w1 = (Returned a, w2)
    /\ api_step [MGetDeviceActivityStatus i; MGetDeviceLocations i 5] w1 w2
    /\ manualDeviceCheck env i w = (Returned tt, w')
    /\ clock w' = clock w
    /\ lastIMEIRefresh w' = lastIMEIRefresh w
    /\ log_writes (trace w') = log_writes (trace w)
         ++ [{| entry := manual_entry i d a; created_at := clock w |}]
    /\ knownIMEIs w' = match d with
                       | Some _ => {[i]} ∪ knownIMEIs w
                       | None => knownIMEIs w
                       end.
Proof.
  destruct (getDeviceByImei_spec env i w) as (d & w1 & E1 & S1).
  destruct (getDeviceActivityStatus_spec env i w1) as (a & w2 & E2 & S2).
  exists d, w1, a, w2.
  enough (exists w', manualDeviceCheck env i w = (Returned tt, w')
    /\ clock w' = clock w
    /\ lastIMEIRefresh w' = lastIMEIRefresh w
    /\ log_writes (trace w') = log_writes (trace w)
         ++ [{| entry := manual_entry i d a; created_at := clock w |}]
    /\ knownIMEIs w' = match d with
                       | Some _ => {[i]} ∪ knownIMEIs w
                       | None => knownIMEIs w
                       end) as (w' & H) by (exists w'; tauto).
  destruct S1 as ((S1c & S1k & S1r & _ & _ & S1w & _) & _).
  destruct S2 as ((S2c & S2k & S2r & _ & _ & S2w & _) & _).
  destruct (logCorrelation_obs env (manual_entry i d a) w2) as (Lc & Lk & Lr & Lw).
  unfold manualDeviceCheck, try_catch. unfold bind at 1. rewrite E1.
  unfold bind at 1. rewrite E2. unfold bind at 1.
  fold (manual_entry i d a). rewrite logCorrelation_ret.
  destruct d as [dev|].
  - unfold bind at 1.
    destruct (updateDeviceInventory_spec env dev
                (snd (logCorrelation env (manual_entry i (Some dev) a) w2)))
      as (w4 & us & E4 & Uc & Uk & Ur & Ul & Uw & Ua & Uu & Us).
    rewrite E4. unfold modify. eexists. split; [reflexivity|].
    cbn [clock knownIMEIs lastIMEIRefresh trace with_known].
    rewrite ?Uc, ?Uk, ?Ur, ?Uw, ?Lc, ?Lk, ?Lr, ?Lw,
            ?S2c, ?S1c, ?S2k, ?S1k, ?S2r, ?S1r, ?S2w, ?S1w. done.
  - unfold ret. eexists. split; [reflexivity|].
    rewrite ?Lc, ?Lk, ?Lr, ?Lw, ?S2c, ?S1c, ?S2k, ?S1k, ?S2r, ?S1r, ?S2w, ?S1w. done.
Qed.

(** X13: [manualDeviceCheck] always returns and logs exactly one entry of
    type [manual]: with a record, status success and result confirmed, and
    the imei joins the known set; without one (nothing came back, or the
    request failed), status error and result no_data, and the known set is
    unchanged. *)
Theorem manual_check_logs_error_without_record (env : Env) (i : string) (w : World) :
  let found := answer None (getDeviceByImei env i w) in
  let w' := snd (manualDeviceCheck env i w) in
  fst (manualDeviceCheck env i w) = Returned tt
  /\ (fun l => (correlation_type (entry l), api_status (entry l),
                correlation_result (entry l)))
       <$> log_writes (trace w')
     = ((fun l => (correlation_type (entry l), api_status (entry l),
                   correlation_result (entry l)))
          <$> log_writes (trace w))
       ++ [match found with
           | Some _ => ("manual", "success", "confirmed")
           | None => ("manual", "error", "no_data")
           end]
  /\ knownIMEIs w' = match found with
                     | Some _ => {[i]} ∪ knownIMEIs w
                     | None => knownIMEIs w
                     end.
Proof.
  cbv zeta.
  destruct (manualDeviceCheck_path env i w)
    as (d & w1 & a & w2 & w' & E1 & _ & _ & _ & E & _ & _ & Hw & Hk).
  rewrite E, (answer_returned _ _ _ _ E1). cbn [fst snd].
  rewrite Hw, fmap_app, Hk. by destruct d.
Qed.

(** X14: after a manual check that found a device, and before the next
    refresh is due, a non-critical event of that device is handled as for
    a known device: no API-service call, no request, result confirmed. *)
Theorem manual_check_makes_device_known
    (env later : Env) (ev : ExceptionLog) (w : World) (t : Z) :
  truthy (deviceImei ev) = true ->
  is_Some (answer None (getDeviceByImei env (deviceImei ev) w)) ->
  t - lastIMEIRefresh w < IMEI_REFRESH_INTERVAL ->
  isCriticalException ev = false ->
  let w1 := with_clock t (snd (manualDeviceCheck env (deviceImei ev) w)) in
  let w' := snd (correlateExceptionEventDriven later ev w1) in
  api_calls (trace w') = api_calls (trace w1)
  /\ http_requests (trace w') = http_requests (trace w1)
  /\ results (trace w') = results (trace w1) ++ ["confirmed"].
Proof.
  intros Ht Hfound Hdue Hcrit. cbv zeta.
  destruct (manualDeviceCheck_path env (deviceImei ev) w)
    as (d & w1 & a & w2 & wm & E1 & _ & _ & _ & E & Hc & Hr & Hw & Hk).
  rewrite (answer_returned _ _ _ _ E1) in Hfound. destruct Hfound as [dev ->].
  rewrite E. cbn [snd].
  assert (answer false (isIMEIKnown later (deviceImei ev) (with_clock t wm)) = true) as Hknown.
  { rewrite isIMEIKnown_within_interval by (cbn; lia).
    unfold answer. cbn. apply bool_decide_eq_true_2. rewrite Hk.
    apply elem_of_union. left. by apply elem_of_singleton. }
  destruct (correlate_known_path later ev (with_clock t wm) Ht Hknown)
    as (w3 & E3 & F3 & H).
  rewrite Hcrit in H. rewrite H. cbn [snd].
  destruct (finish_event_obs later ev (noncritical_entry ev) w3)
    as (_ & _ & Ga & Gh & Gw & _).
  destruct F3 as (_ & _ & _ & _ & Fa & Fh & Fw & _).
  unfold results. rewrite Ga, Gh, Gw, Fa, Fh, Fw, fmap_app. done.
Qed.


Lemma manual_check_makes_device_known_witness :
  http_requests
    (trace (snd (correlateExceptionEventDriven registry_down gps_retry_on_Y
                   after_manual_check)))
  = http_requests (trace after_manual_check).
Proof.
  destruct (manual_check_makes_device_known registry_up registry_down gps_retry_on_Y
              (world_at T0 []) (T0 + 10 * 60 * 1000))
    as (_ & H & _);
    [reflexivity | by eexists | reflexivity | reflexivity | exact H].
Defined.

(** ** The snapshot handler, continued *)

Lemma newLogs_nil snapshot :
  Forall (fun d => hasPendingWrites d = true \/ fromCache d = true) snapshot ->
  newLogs snapshot = [].
Proof.
  unfold newLogs. induction 1 as [|d l Hd _ IH]; [done|].
  rewrite filter_cons. case_decide as Hn; [|exact IH].
  apply andb_true_iff in Hn as [H1%negb_true_iff H2%negb_true_iff].
  destruct Hd; congruence.
Qed.

(** X15: a snapshot whose documents all come from the local cache or have
    pending writes triggers no correlation at all (nothing is fetched,
    logged or stored); its documents are still handed to the callback, in
    order. *)
Theorem local_snapshot_is_not_correlated
    (env : Env) (snapshot : list SnapshotDoc) (w : World) :
  Forall (fun d => hasPendingWrites d = true \/ fromCache d = true) snapshot ->
  onSnapshot env snapshot w = (Returned (doc <$> snapshot), w).
Proof.
  intros H. unfold onSnapshot. rewrite (newLogs_nil _ H). reflexivity.
Qed.

Lemma local_snapshot_is_not_correlated_witness :
  onSnapshot registry_up (cached_snapshot server_down_on_X) (world_at T0 [])
  = (Returned [server_down_on_X; server_down_on_X], world_at T0 []).
Proof.
  apply (local_snapshot_is_not_correlated registry_up
           (cached_snapshot server_down_on_X) (world_at T0 [])).
  constructor; [right; reflexivity|]. constructor; [left; reflexivity|]. constructor.
Defined.


(** ** Device status *)

Lemma filter_length_sublist {A} (P : A -> Prop) `{!forall x, Decision (P x)} (l1 l2 : list A) :
  sublist l1 l2 -> (length (filter P l1) <= length (filter P l2))%nat.
Proof.
  induction 1 as [|x l1 l2 _ IH|x l1 l2 _ IH]; [done|..];
    rewrite ?filter_cons; repeat case_decide; cbn; lia.
Qed.

(** X16: the device status never improves when exception logs are added:
    for a sublist of the logs the status is the same or milder (healthy
    below warning below critical), whatever the ignition logs. *)
Theorem status_never_improves_with_more_logs
    (now : Z) (logs more : list ExceptionLog) (ig ig' : list IgnitionLog) :
  sublist logs more ->
  (status_rank (FirebaseService.calculateDeviceStatus now logs ig)
   <= status_rank (FirebaseService.calculateDeviceStatus now more ig'))%nat.
Proof.
  intros H. unfold FirebaseService.calculateDeviceStatus. cbv zeta.
  pose proof (filter_length_sublist
    (fun l => FirebaseService.is_recent_critical now l = true) _ _ H) as Hc.
  pose proof (filter_length_sublist
    (fun l => FirebaseService.is_recent_warning now l = true) _ _ H) as Hw.
  repeat match goal with
         | |- context [(?a <? ?b)%nat] => destruct (Nat.ltb_spec a b)
         end; cbn; lia.
Qed.

Lemma status_never_improves_with_more_logs_witness :
  (status_rank (FirebaseService.calculateDeviceStatus T0 [] [])
   <= status_rank (FirebaseService.calculateDeviceStatus T0
                     [recent_error] []))%nat.
Proof.
  apply status_never_improves_with_more_logs. apply sublist_nil_l.
Defined.

Lemma filter_filter_recent now (P : ExceptionLog -> bool) (logs : list ExceptionLog) :
  filter (fun l => bool_decide (now - 60 * 60 * 1000 < createdAt l) && P l = true)
         (filter (fun l => now - 60 * 60 * 1000 < createdAt l) logs)
  = filter (fun l => bool_decide (now - 60 * 60 * 1000 < createdAt l) && P l = true) logs.
Proof.
  induction logs as [|l logs IH]; [done|].
  rewrite !filter_cons. case_decide as Hr.
  - rewrite filter_cons, IH. done.
  - rewrite IH. case_decide as Hp; [|done].
    apply andb_true_iff in Hp as [Hp%bool_decide_eq_true _]. done.
Qed.

(** X17: the device status depends only on the exceptions of the last
    hour: dropping every older log, and changing the ignition logs, leaves
    it unchanged. *)
Theorem status_depends_on_last_hour_only
    (now : Z) (logs : list ExceptionLog) (ig ig' : list IgnitionLog) :
  FirebaseService.calculateDeviceStatus now logs ig
  = FirebaseService.calculateDeviceStatus now
      (filter (fun l => now - 60 * 60 * 1000 < createdAt l) logs) ig'.
Proof.
  unfold FirebaseService.calculateDeviceStatus,
         FirebaseService.is_recent_critical, FirebaseService.is_recent_warning.
  cbv zeta.
  rewrite (filter_filter_recent now
    (fun log => bool_decide (toLowerCase (or_else (main log) "") = "server down")
                || includes (toLowerCase (or_else (main log) "")) "critical"
                || includes (toLowerCase (or_else (main log) "")) "error")).
  rewrite (filter_filter_recent now
    (fun log => includes (toLowerCase (or_else (main log) "")) "retry"
                || includes (toLowerCase (or_else (main log) "")) "warning")).
  reflexivity.
Qed.

Lemma filter_length_impl {A} (P Q : A -> Prop)
    `{!forall x, Decision (P x)} `{!forall x, Decision (Q x)} (l : list A) :
  (forall x, P x -> Q x) ->
  (length (filter P l) <= length (filter Q l))%nat.
Proof.
  intros Himpl. induction l as [|x l IH]; [done|].
  rewrite !filter_cons. repeat case_decide; cbn; try lia. exfalso. eauto.
Qed.

(** X18: the status bounds the overview health score computed from the
    same logs at the same time: at most 95 when the status is critical, at
    most 60 when it is warning; so a score of 100 goes with a healthy
    status. *)
Theorem status_caps_overview_score
    (now : Z) (logs : list ExceptionLog) (ig : list IgnitionLog) :
  OverviewTab.calculateHealthScore now logs ig
  <= score_cap (FirebaseService.calculateDeviceStatus now logs ig).
Proof.
  unfold FirebaseService.calculateDeviceStatus, OverviewTab.calculateHealthScore.
  cbv zeta.
  assert (length (filter (fun l => FirebaseService.is_recent_critical now l = true) logs)
          <= length (filter (fun l => OverviewTab.is_recent_log now l = true) logs))%nat as Hc.
  { apply filter_length_impl. intros l Hl.
    apply andb_true_iff in Hl as [Hl _]. exact Hl. }
  assert (length (filter (fun l => FirebaseService.is_recent_warning now l = true) logs)
          <= length (filter (fun l => OverviewTab.is_recent_log now l = true) logs))%nat as Hr.
  { apply filter_length_impl. intros l Hl.
    apply andb_true_iff in Hl as [Hl _]. exact Hl. }
  assert (length (filter (fun l => FirebaseService.is_recent_warning now l = true) logs)
          <= length (filter (fun l => OverviewTab.is_warning_log l = true) logs))%nat as Hw.
  { apply filter_length_impl. intros l Hl.
    apply andb_true_iff in Hl as [_ Hl]. exact Hl. }
  unfold OverviewTab.criticalCount, OverviewTab.warningCount, OverviewTab.recentCount.
  destruct (OverviewTab.has_recent_ignition now ig);
    repeat match goal with
           | |- context [(?a <? ?b)%nat] => destruct (Nat.ltb_spec a b)
           end; cbn; lia.
Qed.


(** ** Device discovery *)

Lemma distinct_from_spec seen l :
  NoDup (distinct_from seen l)
  /\ forall x, x ∈ distinct_from seen l <-> x ∈ l /\ x ∉ seen.
Proof.
  revert seen. induction l as [|y l IH]; intros seen; cbn.
  - split; [constructor|]. intros x. split; [by intros ?%elem_of_nil|].
    by intros [?%elem_of_nil _].
  - case_decide as Hy.
    + destruct (IH seen) as [Hn Hm]. split; [exact Hn|].
      intros x. rewrite Hm, elem_of_cons. split; [tauto|].
      intros [[->|Hx] Hs]; tauto.
    + destruct (IH (y :: seen)) as [Hn Hm]. split.
      * constructor; [|exact Hn]. rewrite Hm, elem_of_cons. tauto.
      * intros x. rewrite !elem_of_cons, Hm, elem_of_cons. split.
        -- intros [->|[Hx Hs]]; tauto.
        -- intros [[->|Hx] Hs]; [tauto|].
           destruct (decide (x = y)); tauto.
Qed.

Lemma distinct_NoDup l : NoDup (distinct l).
Proof. apply distinct_from_spec. Qed.

Lemma elem_of_distinct l x : x ∈ distinct l <-> x ∈ l.
Proof.
  unfold distinct. destruct (distinct_from_spec [] l) as [_ H].
  rewrite H. split; [tauto|]. intros Hx. split; [done|]. apply not_elem_of_nil.
Qed.

Lemma elem_of_with_exception_logs store ids x :
  x ∈ with_exception_logs store ids <-> x ∈ ids /\ exception_logs_empty store x = Body false.
Proof.
  induction ids as [|y ids IH]; cbn.
  - split; [by intros ?%elem_of_nil | by intros [?%elem_of_nil _]].
  - destruct (exception_logs_empty store y) as [[|]|m] eqn:E;
      rewrite ?elem_of_cons, IH, ?elem_of_cons; split.
    + tauto.
    + intros [[->|?] ?]; [congruence | tauto].
    + intros [->|[? ?]]; tauto.
    + intros [[->|?] ?]; tauto.
    + tauto.
    + intros [[->|?] ?]; [congruence | tauto].
Qed.

Lemma is_nil_true {A} (l : list A) : is_nil l = true -> l = [].
Proof. by destruct l. Qed.

(** X19: whatever the event store answers or throws, [discoverDevices]
    returns a list that is not empty and has no duplicates. *)
Theorem discovery_is_never_empty (store : Firestore) :
  discoverDevices store <> [] /\ NoDup (discoverDevices store).
Proof.
  unfold discoverDevices.
  destruct (devices_collection store) as [docs|m].
  2:{ split; [done | apply NoDup_singleton]. }
  cbv zeta. destruct (is_nil (distinct _)) eqn:E.
  - split; [done | apply NoDup_singleton].
  - split; [|apply distinct_NoDup]. intros H. by rewrite H in E.
Qed.

(** X20: every id [discoverDevices] returns is the hard-coded fallback
    imei, or a listed or pattern device whose exception logs are not
    empty, or a non-empty [deviceImei] of the collection-group query. *)
Theorem discovered_ids_have_a_source (store : Firestore) (i : string) :
  i ∈ discoverDevices store -> discoverable store i.
Proof.
  unfold discoverDevices, discoverable.
  destruct (devices_collection store) as [docs|m].
  2:{ intros ->%list_elem_of_singleton. by left. }
  cbv zeta. destruct (is_nil (distinct _)) eqn:E.
  { intros ->%list_elem_of_singleton. by left. }
  clear E. rewrite elem_of_distinct.
  assert (forall ids, i ∈ with_exception_logs store ids ->
                      ids = knownPatterns \/ ids = manualDevices \/ ids = docs ->
                      exception_logs_empty store i = Body false
                      /\ (i ∈ knownPatterns \/ exists docs0, Body docs = Body docs0 /\ i ∈ docs0))
    as Hprobe.
  { intros ids [Hin He]%elem_of_with_exception_logs [ -> | [ -> | -> ] ]; (split; [done|]).
    - by left.
    - left. apply list_elem_of_singleton in Hin as ->. apply list_elem_of_here.
    - right. eauto. }
  destruct (with_exception_logs store docs) as [|x l] eqn:E1.
  2:{ cbn [is_nil]. rewrite <- E1. intros Hin. right. left. eapply Hprobe; eauto. }
  cbn [is_nil app].
  assert (forall found : list string,
    (forall j, j ∈ found -> truthy j = true /\ exists imeis,
                 exception_logs_group store = Body imeis /\ j ∈ imeis) ->
    i ∈ (if is_nil (if is_nil found
                    then found ++ with_exception_logs store knownPatterns else found)
         then (if is_nil found
               then found ++ with_exception_logs store knownPatterns else found)
              ++ with_exception_logs store manualDevices
         else (if is_nil found
               then found ++ with_exception_logs store knownPatterns else found)) ->
    i = ULTIMATE_FALLBACK
    \/ exception_logs_empty store i = Body false
       /\ (i ∈ knownPatterns \/ exists docs0, Body docs = Body docs0 /\ i ∈ docs0)
    \/ truthy i = true
       /\ exists imeis, exception_logs_group store = Body imeis /\ i ∈ imeis) as Hrest.
  { intros found Hfound. destruct found as [|f found]; cbn [is_nil app].
    - destruct (with_exception_logs store knownPatterns) as [|p ps] eqn:E3; cbn [is_nil app].
      + intros Hin. right. left. eapply Hprobe; eauto.
      + rewrite <- E3. intros Hin. right. left. eapply Hprobe; eauto.
    - intros Hin. right. right. by apply Hfound. }
  destruct (exception_logs_group store) as [imeis|m'] eqn:Eg.
  - apply Hrest. intros j [Ht Hj]%elem_of_distinct%list_elem_of_filter. eauto.
  - apply Hrest. by intros j ?%elem_of_nil.
Qed.

(** X21: when the device listing yields at least one device with
    exception logs, the result is exactly those devices, in listing order
    with repeats dropped; the collection-group query, the patterns and the
    fallback play no part. *)
Theorem listed_devices_take_priority (store : Firestore) (docs : list string) :
  devices_collection store = Body docs ->
  with_exception_logs store docs <> [] ->
  discoverDevices store = distinct (with_exception_logs store docs).
Proof.
  intros Hd Hne. unfold discoverDevices. rewrite Hd. cbv zeta.
  destruct (with_exception_logs store docs) as [|x l] eqn:E; [done|].
  cbn [is_nil]. unfold distinct. cbn. reflexivity.
Qed.

Lemma discovered_ids_have_a_source_witness : discoverable store_with_history "A".
Proof.
  apply (discovered_ids_have_a_source store_with_history "A").
  vm_compute. apply list_elem_of_here.
Defined.

Lemma listed_devices_take_priority_witness :
  discoverDevices store_with_history = ["A"].
Proof.
  rewrite (listed_devices_take_priority store_with_history ["A"; "B"; "A"]);
    [reflexivity | reflexivity | discriminate].
Defined.

(** ** Fleet counters *)

Lemma count_where_cons p d rows :
  AnalyticsService.count_where p (Some (d :: rows))
  = (if p d then 1 else 0) + AnalyticsService.count_where p (Some rows).
Proof.
  unfold AnalyticsService.count_where. rewrite filter_cons.
  destruct (p d); case_decide; try done; cbn [length]; lia.
Qed.

(** X22: the fleet counters partition the inventory: healthy, warning
    and critical devices add up to the total, the five distribution
    buckets add up to the total, and the healthy count is the sum of the
    two top buckets (a [null] score counts as 0). *)
Theorem fleet_counters_partition (devices : option (list InventoryRow)) :
  AnalyticsService.healthyDevices devices + AnalyticsService.warningDevices devices
    + AnalyticsService.criticalDevices devices
  = AnalyticsService.totalDevices devices
  /\ sum_list (AnalyticsService.deviceHealthDistribution devices)
     = AnalyticsService.totalDevices devices
  /\ AnalyticsService.healthyDevices devices
     = sum_list (take 2 (AnalyticsService.deviceHealthDistribution devices)).
Proof.
  unfold AnalyticsService.healthyDevices, AnalyticsService.warningDevices,
         AnalyticsService.criticalDevices, AnalyticsService.deviceHealthDistribution.
  cbn [take sum_list foldr].
  destruct devices as [rows|]; [|done].
  induction rows as [|d rows (IH1 & IH2 & IH3)]; [done|].
  rewrite !count_where_cons.
  assert (AnalyticsService.totalDevices (Some (d :: rows))
          = 1 + AnalyticsService.totalDevices (Some rows)) as ->.
  { unfold AnalyticsService.totalDevices. cbn [length]. lia. }
  set (s := AnalyticsService.score d).
  destruct (Z.leb_spec 90 s), (Z.leb_spec 70 s), (Z.leb_spec 50 s),
           (Z.leb_spec 40 s), (Z.leb_spec 30 s),
           (Z.ltb_spec s 90), (Z.ltb_spec s 70), (Z.ltb_spec s 50),
           (Z.ltb_spec s 40), (Z.ltb_spec s 30);
    cbn [andb]; try lia.
Qed.



(** ** Timestamp parsing *)

Lemma append_assoc (a b c : string) : (a +:+ b) +:+ c = a +:+ (b +:+ c).
Proof.
  induction a as [|x a IH]; [done|].
  change (String x a +:+ b) with (String x (a +:+ b)).
  change (String x (a +:+ b) +:+ c) with (String x ((a +:+ b) +:+ c)).
  change (String x a +:+ (b +:+ c)) with (String x (a +:+ (b +:+ c))).
  by rewrite IH.
Qed.

Lemma includes_char_cons x s c :
  includes (String x s) (String c "") = Ascii.eqb c x || includes s (String c "").
Proof.
  cbn [includes]. f_equal. cbn.
  destruct (Ascii.ascii_dec c x) as [->|Hne].
  - rewrite Ascii.eqb_refl. by destruct s.
  - by apply Ascii.eqb_neq in Hne as ->.
Qed.

Lemma includes_char_app a b c :
  includes (a +:+ b) (String c "") = includes a (String c "") || includes b (String c "").
Proof.
  induction a as [|x a IH]; [done|].
  change (String x a +:+ b) with (String x (a +:+ b)).
  by rewrite !includes_char_cons, IH, orb_assoc.
Qed.

Lemma split_no_sep sep s :
  includes s (String sep "") = false -> TimestampUtils.split sep s = [s].
Proof.
  induction s as [|c s IH]; [done|].
  rewrite includes_char_cons. intros H. apply orb_false_iff in H as [Hc Hr].
  cbn [TimestampUtils.split]. rewrite Ascii.eqb_sym, Hc. by rewrite (IH Hr).
Qed.

Lemma split_app sep a b :
  includes a (String sep "") = false ->
  TimestampUtils.split sep (a +:+ String sep b) = a :: TimestampUtils.split sep b.
Proof.
  induction a as [|c a IH]; intros H.
  - change ("" +:+ String sep b) with (String sep b).
    cbn [TimestampUtils.split]. by rewrite Ascii.eqb_refl.
  - change (String c a +:+ String sep b) with (String c (a +:+ String sep b)).
    rewrite includes_char_cons in H. apply orb_false_iff in H as [Hc Hr].
    cbn [TimestampUtils.split]. rewrite Ascii.eqb_sym, Hc. by rewrite (IH Hr).
Qed.

(** X23: a string [day/month/year time] (pieces not empty, no slash or
    space inside the date pieces, no space in the time) is read day first:
    [TimestampUtils.parseTimestamp] returns the time value of
    [year-MM-DDTtime], month and day padded to two digits, whenever that
    ISO string is a valid date. *)
Theorem day_first_string_is_read_day_first
    (date_of_string : string -> option Z) (now t : Z) (day month year time : string) :
  truthy day = true -> truthy month = true -> truthy year = true -> truthy time = true ->
  includes day "/" = false -> includes month "/" = false -> includes year "/" = false ->
  includes day " " = false -> includes month " " = false -> includes year " " = false ->
  includes time " " = false ->
  date_of_string (year +:+ "-" +:+ TimestampUtils.padStart2 month +:+ "-" +:+ TimestampUtils.padStart2 day
                  +:+ "T" +:+ time) = Some t ->
  TimestampUtils.parseTimestamp date_of_string now
    (TimestampUtils.TsString (day +:+ "/" +:+ month +:+ "/" +:+ year +:+ " " +:+ time)) = Some t.
Proof.
  intros Td Tm Ty Tt Sd Sm Sy Pd Pm Py Pt Hparse.
  set (datePart := day +:+ "/" +:+ month +:+ "/" +:+ year).
  assert (day +:+ "/" +:+ month +:+ "/" +:+ year +:+ " " +:+ time
          = datePart +:+ String " " time) as ->.
  { unfold datePart. by rewrite !append_assoc. }
  assert (includes datePart " " = false) as Pdate.
  { unfold datePart. rewrite !includes_char_app, Pd, Pm, Py. reflexivity. }
  assert (truthy datePart = true) as Tdate by (unfold datePart; by destruct day).
  unfold TimestampUtils.parseTimestamp.
  assert (TimestampUtils.falsy (TimestampUtils.TsString (datePart +:+ String " " time)) = false) as ->.
  { cbn. by destruct datePart. }
  assert (TimestampUtils.day_first_iso (datePart +:+ String " " time)
          = Some (year +:+ "-" +:+ TimestampUtils.padStart2 month +:+ "-" +:+ TimestampUtils.padStart2 day
                  +:+ "T" +:+ time)) as ->; [|by rewrite Hparse].
  unfold TimestampUtils.day_first_iso.
  assert (includes (datePart +:+ String " " time) "/" = true) as ->.
  { rewrite includes_char_app. unfold datePart. rewrite includes_char_app.
    change ("/" +:+ month +:+ "/" +:+ year) with (String "/" (month +:+ "/" +:+ year)).
    rewrite includes_char_cons, Ascii.eqb_refl. by rewrite orb_true_r. }
  assert (includes (datePart +:+ String " " time) " " = true) as ->.
  { rewrite includes_char_app, includes_char_cons, Ascii.eqb_refl. by rewrite orb_true_r. }
  cbn [andb]. rewrite (split_app " " datePart time Pdate), (split_no_sep " " time Pt).
  rewrite Tdate, Tt. cbn [andb].
  unfold datePart.
  change (day +:+ "/" +:+ month +:+ "/" +:+ year)
    with (day +:+ String "/" (month +:+ String "/" year)).
  rewrite (split_app "/" day _ Sd), (split_app "/" month _ Sm), (split_no_sep "/" year Sy).
  by rewrite Td, Tm, Ty.
Qed.

Lemma day_first_string_is_read_day_first_witness :
  TimestampUtils.parseTimestamp iso_only T0 (TimestampUtils.TsString "5/3/2024 10:15:00.000") = Some 1709633700000.
Proof.
  apply (day_first_string_is_read_day_first iso_only T0 1709633700000
           "5" "3" "2024" "10:15:00.000"); reflexivity.
Defined.

(** X24: [TimestampUtils.parseTimestamp] never returns an Invalid Date, and
    [isValidTimestamp] accepts exactly the inputs that are not TimestampUtils.falsy: any
    non-empty string, parseable or not, any non-zero number, any
    [Date], even an invalid one. *)
Theorem parsed_timestamp_is_always_valid
    (date_of_string : string -> option Z) (now : Z)
    (timestamp : TimestampUtils.TimestampInput) :
  is_Some (TimestampUtils.parseTimestamp date_of_string now timestamp)
  /\ TimestampUtils.isValidTimestamp date_of_string now timestamp
     = negb (TimestampUtils.falsy timestamp).
Proof.
  unfold TimestampUtils.isValidTimestamp, TimestampUtils.parseTimestamp.
  destruct (TimestampUtils.falsy timestamp) eqn:F; [by split; [eexists|]|].
  destruct timestamp as [|m|[t|]|[n|]|s]; cbn;
    repeat match goal with
           | |- context [match ?x with _ => _ end] => destruct x
           end; by split; [eexists|].
Qed.
